(** * Sonata GPIO and OpenTitan UART drivers (CHERIoT RTOS, sunburst platform)

    A shallow embedding of
      sdk/include/platform/sunburst/platform-gpio.hh
      sdk/include/platform/sunburst/platform-uart.hh
    Registers are [uint32_t] fields, modelled as [Z] with the wrap-around of
    every fixed-width operation written out.  Operations whose C++ behaviour
    is undefined at some input (a shift of a 32-bit [int] by 32 or more, a
    division by zero) return [None] there. *)

From Stdlib Require Import ZArith Lia Bool List.
Import ListNotations.

Local Open Scope Z_scope.

(** ** Fixed-width integers *)

(** Conversion to [uint8_t], [uint32_t], [uint64_t]: reduction modulo 2^w. *)
Definition to_u8 (x : Z) : Z := x mod 2 ^ 8.
Definition to_u16 (x : Z) : Z := x mod 2 ^ 16.
Definition to_u32 (x : Z) : Z := x mod 2 ^ 32.
Definition to_u64 (x : Z) : Z := x mod 2 ^ 64.

(** The values of each type. *)
Definition is_u8 (x : Z) : Prop := 0 <= x < 2 ^ 8.
Definition is_u32 (x : Z) : Prop := 0 <= x < 2 ^ 32.

(** [~x] on a [uint32_t]. *)
Definition not32 (x : Z) : Z := to_u32 (Z.lnot x).

(** [1 << index] where [1] is a 32-bit [int] and [index] was promoted to
    [int]: defined for shift amounts 0..31 only.  The [int] result is then
    converted to [uint32_t] by the [&] with a [uint32_t] operand. *)
Definition shl_one (index : Z) : option Z :=
  if (0 <=? index) && (index <? 32)
  then Some (to_u32 (Z.shiftl 1 index))
  else None.

(** Sequencing of computations that may be undefined. *)
Definition bind {A B : Type} (m : option A) (k : A -> option B) : option B :=
  match m with
  | Some a => k a
  | None => None
  end.

Notation "x <- m ;; k" := (bind m (fun x => k))
  (at level 61, m at next level, right associativity).

(** ** SonataGpio<OutputMask, InputMask> *)

Module SonataGpio.

(** The four registers of one GPIO instance, in declaration order. *)
Record t : Type := mk {
  output : Z;
  input : Z;
  debouncedInput : Z;
  outputEnable : Z
}.

(** Stores to a single register. *)
Definition set_output (s : t) (v : Z) : t :=
  mk v (input s) (debouncedInput s) (outputEnable s).

Definition set_outputEnable (s : t) (v : Z) : t :=
  mk (output s) (input s) (debouncedInput s) v.

(** Every register holds a [uint32_t]. *)
Definition wf (s : t) : Prop :=
  is_u32 (output s) /\ is_u32 (input s) /\
  is_u32 (debouncedInput s) /\ is_u32 (outputEnable s).

(** [gpio_bit(uint8_t index, uint32_t mask)]: [(1 << index) & mask].
    [index] is a value of [uint8_t]; callers holding a wider index convert. *)
Definition gpio_bit (index mask : Z) : option Z :=
  b <- shl_one index ;;
  Some (Z.land b mask).

Section Masks.

Variables OutputMask InputMask : Z.

(** [bool output_set(uint8_t index, bool value)] *)
Definition output_set (s : t) (index : Z) (value : bool) : option (t * bool) :=
  Bit <- gpio_bit index OutputMask ;;
  let s' :=
    if value
    then set_output s (Z.lor (output s) Bit)
    else set_output s (Z.land (output s) (not32 Bit)) in
  Some (s', negb (Bit =? 0)).

(** [bool output_enable(uint32_t index, bool enable = true)]; the index is
    narrowed to [uint8_t] when it is passed to [gpio_bit]. *)
Definition output_enable (s : t) (index : Z) (enable : bool) : option (t * bool) :=
  Bit <- gpio_bit (to_u8 index) OutputMask ;;
  let s' :=
    if enable
    then set_outputEnable s (Z.lor (outputEnable s) Bit)
    else set_outputEnable s (Z.land (outputEnable s) (not32 Bit)) in
  Some (s', negb (Bit =? 0)).

(** [bool input_get(uint32_t index)] *)
Definition input_get (s : t) (index : Z) : option bool :=
  Bit <- gpio_bit (to_u8 index) InputMask ;;
  Some (0 <? Z.land (input s) Bit).

(** [bool input_debounced_get(uint32_t index)] *)
Definition input_debounced_get (s : t) (index : Z) : option bool :=
  Bit <- gpio_bit (to_u8 index) InputMask ;;
  Some (0 <? Z.land (debouncedInput s) Bit).

(** [template<uint32_t Index> void output_enable(bool enable = true)].  The
    [static_assert] on [gpio_bit(Index, OutputMask)] is evaluated by the
    compiler: the instantiation is ill-formed, [None], unless that constant
    expression has a value and the value is not zero. *)
Definition output_enable_static (Index : Z) (s : t) (enable : bool) : option t :=
  Bit <- gpio_bit (to_u8 Index) OutputMask ;;
  if Bit =? 0 then None
  else r <- output_enable s Index enable ;; Some (fst r).

(** [template<uint32_t Index> bool input_get()], with its [static_assert] on
    [gpio_bit(Index, InputMask)]. *)
Definition input_get_static (Index : Z) (s : t) : option bool :=
  Bit <- gpio_bit (to_u8 Index) InputMask ;;
  if Bit =? 0 then None
  else input_get s Index.

End Masks.

End SonataGpio.

(** ** The other instances of [SonataGpio]: their mask parameters *)

Module SonataGpioRaspberryPiHat.
Definition OutputMask : Z := 0x0FFFFFFF.
Definition InputMask : Z := 0x0FFFFFFF.
End SonataGpioRaspberryPiHat.

Module SonataGpioArduinoShield.
Definition OutputMask : Z := 0x00003FFF.
Definition InputMask : Z := 0x00003FFF.
End SonataGpioArduinoShield.

Module SonataGpioPmod.
Definition OutputMask : Z := 0x000000FF.
Definition InputMask : Z := 0x000000FF.
End SonataGpioPmod.

Module SonataGpioPmodC.
Definition OutputMask : Z := 0x0000003F.
Definition InputMask : Z := 0x0000003F.
End SonataGpioPmodC.

(** ** SonataGpioBoard : SonataGpio<0x000000FF, 0x0001FFFF> *)

Module SonataGpioBoard.

Import SonataGpio.

Definition OutputMask : Z := 0x000000FF.
Definition InputMask : Z := 0x0001FFFF.

(** [enum class Outputs] and [enum class Inputs] *)
Definition Leds : Z := Z.shiftl 0xFF 0.
Definition DipSwitches : Z := Z.shiftl 0xFF 0.
Definition Joystick : Z := Z.shiftl 0x1F 8.
Definition SoftwareSelectSwitches : Z := Z.shiftl 0x7 13.
Definition MicroSdCardDetection : Z := Z.shiftl 0x1 16.

Definition FirstLED : Z := 0.
Definition LastLED : Z := 7.
Definition LEDCount : Z := LastLED - FirstLED + 1.
Definition LEDMask : Z := Leds.

(** [led_bit(uint32_t index)]: [gpio_bit(index + FirstLED, LEDMask)]; the sum
    is a [uint32_t], narrowed to the [uint8_t] parameter of [gpio_bit]. *)
Definition led_bit (index : Z) : option Z :=
  gpio_bit (to_u8 (to_u32 (index + FirstLED))) LEDMask.

Definition led_on (s : t) (index : Z) : option t :=
  Bit <- led_bit index ;;
  Some (set_output s (Z.lor (output s) Bit)).

Definition led_off (s : t) (index : Z) : option t :=
  Bit <- led_bit index ;;
  Some (set_output s (Z.land (output s) (not32 Bit))).

Definition led_toggle (s : t) (index : Z) : option t :=
  Bit <- led_bit index ;;
  Some (set_output s (Z.lxor (output s) Bit)).

Definition FirstSwitch : Z := 0.
Definition LastSwitch : Z := 7.
Definition SwitchCount : Z := LastSwitch - FirstSwitch + 1.
Definition SwitchMask : Z := DipSwitches.

Definition switch_bit (index : Z) : option Z :=
  gpio_bit (to_u8 (to_u32 (index + FirstSwitch))) SwitchMask.

Definition read_switch (s : t) (index : Z) : option bool :=
  Bit <- switch_bit index ;;
  Some (0 <? Z.land (input s) Bit).

(** [enum class Joystick : uint16_t] *)
Module JoystickState.
Definition Left : Z := Z.shiftl 1 8.
Definition Up : Z := Z.shiftl 1 9.
Definition Pressed : Z := Z.shiftl 1 10.
Definition Down : Z := Z.shiftl 1 11.
Definition Right : Z := Z.shiftl 1 12.
End JoystickState.

(** [read_joystick()]: the joystick bits of [input], as one snapshot,
    converted to the enumeration, whose underlying type is [uint16_t]. *)
Definition read_joystick (s : t) : Z :=
  to_u16 (Z.land (input s) Joystick).

(** Bit positions of the two named groups. *)
Definition led_pin (j : Z) : Prop := FirstLED <= j <= LastLED.
Definition switch_pin (j : Z) : Prop := FirstSwitch <= j <= LastSwitch.

(** [s'] differs from [s] in an output bit that is not an LED bit. *)
Definition changes_non_led_bit (s s' : t) : Prop :=
  exists j, ~ led_pin j /\ Z.testbit (output s') j <> Z.testbit (output s) j.

(** [s1] and [s2] show the same switch bits on [input]. *)
Definition same_switches (s1 s2 : t) : Prop :=
  forall j, switch_pin j -> Z.testbit (input s1) j = Z.testbit (input s2) j.

(** The reading of the named accessors under which the computed bit is not
    masked: some index past the group makes an LED accessor change an output
    bit outside the LED group, or makes [read_switch] depend on an input bit
    outside the switch group. *)
Definition named_accessors_reach_adjacent_bits : Prop :=
  (exists index s s',
      is_u32 index /\ LEDCount <= index /\ wf s /\
      (led_on s index = Some s' \/ led_off s index = Some s' \/
       led_toggle s index = Some s') /\
      changes_non_led_bit s s')
  \/
  (exists index s1 s2,
      is_u32 index /\ SwitchCount <= index /\ same_switches s1 s2 /\
      read_switch s1 index <> read_switch s2 index).

End SonataGpioBoard.

(** ** OpenTitanUart *)

Module OpenTitanUart.

(** The thirteen registers, in declaration order. *)
Record t : Type := mk {
  intrState : Z;
  intrEnable : Z;
  intrTest : Z;
  alertTest : Z;
  ctrl : Z;
  status : Z;
  rData : Z;
  wData : Z;
  fifoCtrl : Z;
  fifoStatus : Z;
  ovrd : Z;
  val : Z;
  timeoutCtrl : Z
}.

Definition set_ctrl (s : t) (v : Z) : t :=
  mk (intrState s) (intrEnable s) (intrTest s) (alertTest s) v (status s)
     (rData s) (wData s) (fifoCtrl s) (fifoStatus s) (ovrd s) (val s)
     (timeoutCtrl s).

Definition set_wData (s : t) (v : Z) : t :=
  mk (intrState s) (intrEnable s) (intrTest s) (alertTest s) (ctrl s)
     (status s) (rData s) v (fifoCtrl s) (fifoStatus s) (ovrd s) (val s)
     (timeoutCtrl s).

(** The device, not the driver, updates [fifoStatus]. *)
Definition set_fifoStatus (s : t) (v : Z) : t :=
  mk (intrState s) (intrEnable s) (intrTest s) (alertTest s) (ctrl s)
     (status s) (rData s) (wData s) (fifoCtrl s) v (ovrd s) (val s)
     (timeoutCtrl s).

Section Clock.

(** The macro [CPU_TIMER_HZ], which the board's build supplies: the CPU
    clock frequency in Hz, an integer constant. *)
Variable CPU_TIMER_HZ : Z.

(** [void init(unsigned baudRate)].  The quotient is taken on [uint64_t]
    and narrowed to the [uint32_t] NCO; the shift of NCO is a [uint32_t]
    shift.  A zero divisor leaves the division undefined. *)
Definition init (s : t) (baudRate : Z) : option t :=
  let divisor := to_u64 CPU_TIMER_HZ in
  if divisor =? 0 then None
  else
    let NCO := to_u32 (to_u64 (Z.shiftl (to_u64 baudRate) 20) / divisor) in
    Some (set_ctrl s (Z.lor (to_u32 (Z.shiftl NCO 16)) 3)).

End Clock.

(** [bool can_write()] *)
Definition can_write (s : t) : bool :=
  Z.land (fifoStatus s) 0xff <? 32.

(** [bool can_read()] *)
Definition can_read (s : t) : bool :=
  0 <? Z.land (Z.shiftr (fifoStatus s) 16) 0xff.

(** *** [blocking_write] as a machine

    [fifoStatus] is volatile: each evaluation of [can_write()] loads the
    value the device shows at that moment.  The device is a sequence [fifo],
    [fifo n] being what the [n]-th load observes.  The run records every
    access of the call as an event. *)

Inductive event : Type :=
| Load_fifoStatus (v : Z)
| Store_wData (v : Z).

(** Program points of [while (!can_write()) {} wData = byte;]. *)
Inductive point : Type :=
| Polling      (* about to evaluate the loop condition *)
| Storing      (* the loop has exited; about to store to wData *)
| Returned.    (* the call has returned *)

Record run : Type := mkRun {
  regs : t;
  at_point : point;
  loads : nat;
  trace : list event
}.

Definition start (s : t) : run := mkRun s Polling 0 [].

Definition step (fifo : nat -> Z) (byte : Z) (r : run) : run :=
  match at_point r with
  | Polling =>
      let s := set_fifoStatus (regs r) (fifo (loads r)) in
      mkRun s
            (if can_write s then Storing else Polling)
            (S (loads r))
            (trace r ++ [Load_fifoStatus (fifoStatus s)])
  | Storing =>
      mkRun (set_wData (regs r) byte) Returned (loads r)
            (trace r ++ [Store_wData byte])
  | Returned => r
  end.

(** The call after [n] steps. *)
Definition blocking_write (fifo : nat -> Z) (s : t) (byte : Z) (n : nat) : run :=
  Nat.iter n (step fifo byte) (start s).

(** The loads of the first [n] polls, in order. *)
Definition polled (fifo : nat -> Z) (n : nat) : list event :=
  map (fun k => Load_fifoStatus (fifo k)) (seq 0 n).

(** The stores to [wData] in a trace. *)
Definition stores (tr : list event) : list Z :=
  flat_map (fun e => match e with Store_wData v => [v] | Load_fifoStatus _ => [] end) tr.

(** The transmit FIFO shows no room at any of the first [n] loads. *)
Definition full_until (fifo : nat -> Z) (n : nat) : Prop :=
  forall k, (k < n)%nat -> 32 <= fifo k mod 2 ^ 8.

(** *** [blocking_read] as a machine

    The device is the sequence [fifo] of values the loads of [fifoStatus]
    observe, and [rdata n], the value [rData] shows to a load made after [n]
    loads of [fifoStatus]. *)

(** The device, not the driver, updates [rData]. *)
Definition set_rData (s : t) (v : Z) : t :=
  mk (intrState s) (intrEnable s) (intrTest s) (alertTest s) (ctrl s)
     (status s) v (wData s) (fifoCtrl s) (fifoStatus s) (ovrd s) (val s)
     (timeoutCtrl s).

Inductive rx_event : Type :=
| Rx_load_fifoStatus (v : Z)
| Rx_load_rData (v : Z).

(** Program points of [while (!can_read()) {} return rData;]. *)
Inductive rx_point : Type :=
| RxPolling                 (* about to evaluate the loop condition *)
| RxFetching                (* the loop has exited; about to load rData *)
| RxReturned (result : Z).  (* the call has returned [result] *)

Record rx_run : Type := mkRxRun {
  rx_regs : t;
  rx_at : rx_point;
  rx_loads : nat;
  rx_trace : list rx_event
}.

Definition rx_start (s : t) : rx_run := mkRxRun s RxPolling 0 [].

(** The [uint32_t] loaded from [rData] is narrowed to the [uint8_t] result. *)
Definition rx_step (fifo rdata : nat -> Z) (r : rx_run) : rx_run :=
  match rx_at r with
  | RxPolling =>
      let s := set_fifoStatus (rx_regs r) (fifo (rx_loads r)) in
      mkRxRun s
              (if can_read s then RxFetching else RxPolling)
              (S (rx_loads r))
              (rx_trace r ++ [Rx_load_fifoStatus (fifoStatus s)])
  | RxFetching =>
      let s := set_rData (rx_regs r) (rdata (rx_loads r)) in
      mkRxRun s (RxReturned (to_u8 (rData s))) (rx_loads r)
              (rx_trace r ++ [Rx_load_rData (rData s)])
  | RxReturned _ => r
  end.

(** The call after [n] steps. *)
Definition blocking_read (fifo rdata : nat -> Z) (s : t) (n : nat) : rx_run :=
  Nat.iter n (rx_step fifo rdata) (rx_start s).

Definition rx_polled (fifo : nat -> Z) (n : nat) : list rx_event :=
  map (fun k => Rx_load_fifoStatus (fifo k)) (seq 0 n).

(** The loads of [rData] in a trace. *)
Definition fetches (tr : list rx_event) : list Z :=
  flat_map
    (fun e => match e with Rx_load_rData v => [v] | Rx_load_fifoStatus _ => [] end)
    tr.

(** The receive FIFO level, bits 16..23 of a [fifoStatus] value. *)
Definition rx_level (v : Z) : Z := (v / 2 ^ 16) mod 2 ^ 8.

(** The receive FIFO shows no byte at any of the first [n] loads. *)
Definition empty_until (fifo : nat -> Z) (n : nat) : Prop :=
  forall k, (k < n)%nat -> rx_level (fifo k) = 0.

(** The registers of [s'] are those of [s] but for [fifoStatus], which the
    device updates, and [wData]. *)
Definition same_but_fifoStatus_wData (s s' : t) : Prop :=
  intrState s' = intrState s /\ intrEnable s' = intrEnable s /\
  intrTest s' = intrTest s /\ alertTest s' = alertTest s /\
  ctrl s' = ctrl s /\ status s' = status s /\ rData s' = rData s /\
  fifoCtrl s' = fifoCtrl s /\ ovrd s' = ovrd s /\ val s' = val s /\
  timeoutCtrl s' = timeoutCtrl s.

End OpenTitanUart.

(** * Properties *)

(** Settle a comparison of the goal whose outcome [lia] can decide. *)
Ltac holds c :=
  replace c with true
    by (symmetry; first [apply Z.leb_le | apply Z.ltb_lt | apply Z.eqb_eq]; lia).

Ltac fails c :=
  replace c with false
    by (symmetry; first [apply Z.leb_gt | apply Z.ltb_ge | apply Z.eqb_neq]; lia).

(** ** Bit-level facts about the fixed-width operations *)

Lemma is_u32_testbit_high (x j : Z) :
  is_u32 x -> 32 <= j -> Z.testbit x j = false.
Proof.
  intros Hx Hj. unfold is_u32 in Hx.
  rewrite <- (Z.mod_small x (2 ^ 32)) by exact Hx.
  apply Z.mod_pow2_bits_high. lia.
Qed.

Lemma to_u32_small (x : Z) : is_u32 x -> to_u32 x = x.
Proof. intros Hx. apply Z.mod_small. exact Hx. Qed.

Lemma pow2_is_u32 (i : Z) : 0 <= i < 32 -> is_u32 (2 ^ i).
Proof.
  intros Hi. split.
  - apply Z.pow_nonneg. lia.
  - apply Z.pow_lt_mono_r; lia.
Qed.

Lemma testbit_not32 (b j : Z) :
  Z.testbit (not32 b) j = (0 <=? j) && (j <? 32) && negb (Z.testbit b j).
Proof.
  unfold not32, to_u32.
  destruct (Z.leb_spec 0 j) as [Hj | Hj]; cbn [andb].
  - destruct (Z.ltb_spec j 32) as [Hlt | Hge]; cbn [andb].
    + rewrite Z.mod_pow2_bits_low by lia. apply Z.lnot_spec. exact Hj.
    + apply Z.mod_pow2_bits_high. lia.
  - apply Z.testbit_neg_r. exact Hj.
Qed.

Lemma land_not32_zero (x : Z) : is_u32 x -> Z.land x (not32 0) = x.
Proof.
  intros Hx. apply Z.bits_inj'. intros j Hj.
  rewrite Z.land_spec, testbit_not32, Z.bits_0.
  destruct (Z.ltb_spec j 32) as [Hlt | Hge].
  - holds (0 <=? j).
    cbn. apply andb_true_r.
  - rewrite (is_u32_testbit_high x j Hx Hge). reflexivity.
Qed.

Lemma land_pow2 (i m : Z) :
  0 <= i -> Z.land (2 ^ i) m = if Z.testbit m i then 2 ^ i else 0.
Proof.
  intros Hi. apply Z.bits_inj'. intros j Hj.
  rewrite Z.land_spec, Z.pow2_bits_eqb by exact Hi.
  destruct (Z.eqb_spec i j) as [-> | Hne].
  - destruct (Z.testbit m j); cbn.
    + rewrite Z.pow2_bits_true by exact Hj. reflexivity.
    + rewrite Z.bits_0. reflexivity.
  - cbn. destruct (Z.testbit m i).
    + rewrite Z.pow2_bits_false by exact Hne. reflexivity.
    + rewrite Z.bits_0. reflexivity.
Qed.

Lemma shl_one_defined (i : Z) : 0 <= i < 32 -> shl_one i = Some (2 ^ i).
Proof.
  intros Hi. unfold shl_one.
  holds (0 <=? i).
  holds (i <? 32).
  cbn [andb]. rewrite Z.shiftl_1_l.
  rewrite to_u32_small by (apply pow2_is_u32; exact Hi). reflexivity.
Qed.

Lemma shl_one_undefined (i : Z) : 32 <= i -> shl_one i = None.
Proof.
  intros Hi. unfold shl_one.
  fails (i <? 32).
  rewrite andb_false_r. reflexivity.
Qed.

Lemma shl_one_some (i b : Z) : shl_one i = Some b -> 0 <= i < 32.
Proof.
  unfold shl_one.
  destruct (Z.leb_spec 0 i) as [Hlo | Hlo];
    destruct (Z.ltb_spec i 32) as [Hhi | Hhi]; cbn [andb];
    intros Hs; try discriminate Hs; lia.
Qed.

Module SonataGpioFacts.

Import SonataGpio.

Lemma gpio_bit_defined (i m : Z) :
  0 <= i < 32 ->
  gpio_bit i m = Some (if Z.testbit m i then 2 ^ i else 0).
Proof.
  intros Hi. unfold gpio_bit. rewrite (shl_one_defined i Hi). cbn [bind].
  rewrite land_pow2 by lia. reflexivity.
Qed.

Lemma gpio_bit_some (i m b : Z) :
  gpio_bit i m = Some b ->
  0 <= i < 32 /\ b = (if Z.testbit m i then 2 ^ i else 0).
Proof.
  intros H. unfold gpio_bit in H.
  destruct (shl_one i) as [p |] eqn:Hs; cbn [bind] in H; [| discriminate H].
  pose proof (shl_one_some i p Hs) as Hi. split; [exact Hi |].
  rewrite (shl_one_defined i Hi) in Hs. injection Hs as <-.
  injection H as <-. apply land_pow2. lia.
Qed.

Lemma gpio_bit_undefined (i m : Z) : 32 <= i -> gpio_bit i m = None.
Proof.
  intros Hi. unfold gpio_bit. rewrite (shl_one_undefined i Hi). reflexivity.
Qed.

(** Inside the width of the register [gpio_bit] is [(1 << index) & mask]. *)
Lemma gpio_bit_in_width (i m : Z) :
  0 <= i < 32 -> gpio_bit i m = Some (Z.land (Z.shiftl 1 i) m).
Proof.
  intros Hi. unfold gpio_bit. rewrite (shl_one_defined i Hi). cbn [bind].
  rewrite Z.shiftl_1_l. reflexivity.
Qed.

(** The result of [gpio_bit] is a [uint32_t] inside the mask. *)
Lemma gpio_bit_in_mask (i m b : Z) :
  gpio_bit i m = Some b -> is_u32 b /\ Z.land b m = b.
Proof.
  intros H. destruct (gpio_bit_some i m b H) as [Hi ->].
  destruct (Z.testbit m i) eqn:Hm.
  - split; [apply pow2_is_u32; exact Hi |].
    rewrite land_pow2 by lia. rewrite Hm. reflexivity.
  - split; [unfold is_u32; lia | apply Z.land_0_l].
Qed.

Lemma set_output_same (s : t) : set_output s (output s) = s.
Proof. destruct s; reflexivity. Qed.

Lemma set_outputEnable_same (s : t) : set_outputEnable s (outputEnable s) = s.
Proof. destruct s; reflexivity. Qed.

Section Masks.

Variables OutputMask InputMask : Z.

(** C2: when [gpio_bit i OutputMask] is 0, [output_set i v] returns [false]
    and the registers, [output] among them, are what they were, for both
    values of [v]. *)
Theorem output_set_out_of_mask (s : t) (i : Z) (v : bool) :
  is_u32 (output s) ->
  gpio_bit i OutputMask = Some 0 ->
  output_set OutputMask s i v = Some (s, false).
Proof.
  intros Hu Hbit. unfold output_set. rewrite Hbit. cbn [bind].
  change (negb (0 =? 0)) with false.
  destruct v.
  - rewrite Z.lor_0_r, set_output_same. reflexivity.
  - rewrite (land_not32_zero _ Hu), set_output_same. reflexivity.
Qed.

(** Setting and clearing one bit of a [uint32_t], bit by bit. *)
Lemma testbit_lor_pow2 (o i j : Z) :
  0 <= i ->
  Z.testbit (Z.lor o (2 ^ i)) j = Z.testbit o j || (i =? j).
Proof.
  intros Hi. rewrite Z.lor_spec, Z.pow2_bits_eqb by exact Hi. reflexivity.
Qed.

Lemma testbit_land_not32_pow2 (o i j : Z) :
  is_u32 o -> 0 <= i ->
  Z.testbit (Z.land o (not32 (2 ^ i))) j = Z.testbit o j && negb (i =? j).
Proof.
  intros Ho Hi.
  rewrite Z.land_spec, testbit_not32, Z.pow2_bits_eqb by exact Hi.
  destruct (Z.leb_spec 0 j) as [Hj | Hj]; cbn [andb].
  - destruct (Z.ltb_spec j 32) as [Hlt | Hge]; cbn [andb].
    + reflexivity.
    + rewrite (is_u32_testbit_high o j Ho Hge). reflexivity.
  - rewrite (Z.testbit_neg_r o j Hj). reflexivity.
Qed.

(** A non-zero result of [gpio_bit] is the single bit [2 ^ i]. *)
Lemma gpio_bit_nonzero (i m b : Z) :
  gpio_bit i m = Some b -> b <> 0 -> 0 <= i < 32 /\ b = 2 ^ i.
Proof.
  intros H Hb. destruct (gpio_bit_some i m b H) as [Hi Hval].
  split; [exact Hi |]. destruct (Z.testbit m i); [exact Hval | contradiction].
Qed.

(** C3: for an index valid under [OutputMask], [output_set i true] returns
    [true] and sets bit [i] of [output], every other bit keeping its value;
    [output_set i false] returns [true] and clears bit [i], every other bit
    keeping its value. *)
Theorem output_set_valid (s : t) (i b : Z) :
  is_u32 (output s) ->
  gpio_bit i OutputMask = Some b ->
  b <> 0 ->
  (exists s1,
      output_set OutputMask s i true = Some (s1, true) /\
      Z.testbit (output s1) i = true /\
      forall j, j <> i -> Z.testbit (output s1) j = Z.testbit (output s) j)
  /\
  (exists s0,
      output_set OutputMask s i false = Some (s0, true) /\
      Z.testbit (output s0) i = false /\
      forall j, j <> i -> Z.testbit (output s0) j = Z.testbit (output s) j).
Proof.
  intros Hu Hbit Hb.
  destruct (gpio_bit_nonzero i OutputMask b Hbit Hb) as [Hi ->].
  assert (Hpos : negb (2 ^ i =? 0) = true).
  { apply negb_true_iff, Z.eqb_neq. pose proof (Z.pow_pos_nonneg 2 i). lia. }
  unfold output_set. rewrite Hbit. cbn [bind]. rewrite Hpos.
  split; eexists; (split; [reflexivity |]); cbn [output set_output].
  - split.
    + rewrite testbit_lor_pow2, Z.eqb_refl by lia. apply orb_true_r.
    + intros j Hj. rewrite testbit_lor_pow2 by lia.
      fails (i =? j).
      apply orb_false_r.
  - split.
    + rewrite testbit_land_not32_pow2, Z.eqb_refl by (assumption || lia).
      apply andb_false_r.
    + intros j Hj. rewrite testbit_land_not32_pow2 by (assumption || lia).
      fails (i =? j).
      apply andb_true_r.
Qed.

(** Testing one bit of a register through the mask [2 ^ i]. *)
Lemma land_pow2_positive (x i : Z) :
  0 <= i -> (0 <? Z.land x (2 ^ i)) = Z.testbit x i.
Proof.
  intros Hi. rewrite Z.land_comm, land_pow2 by exact Hi.
  destruct (Z.testbit x i).
  - apply Z.ltb_lt. apply Z.pow_pos_nonneg; lia.
  - reflexivity.
Qed.

(** Inside the width of the register, an index whose bit is not in
    [InputMask] reads as [false] from both input registers. *)
Lemma input_get_unmasked_pin (s : t) (index : Z) :
  0 <= index < 32 ->
  Z.testbit InputMask index = false ->
  input_get InputMask s index = Some false /\
  input_debounced_get InputMask s index = Some false.
Proof.
  intros Hi Hm. unfold input_get, input_debounced_get.
  assert (Hcast : to_u8 index = index) by (apply Z.mod_small; lia).
  rewrite Hcast, (gpio_bit_defined index InputMask Hi), Hm. cbn [bind].
  rewrite !Z.land_0_r. split; reflexivity.
Qed.

(** The stores of [output_set] and [output_enable] go to one register. *)
Lemma output_set_stores_output (s s' : t) (i : Z) (v r : bool) :
  output_set OutputMask s i v = Some (s', r) ->
  exists o, s' = set_output s o.
Proof.
  unfold output_set.
  destruct (gpio_bit i OutputMask) as [b |]; cbn [bind]; [| discriminate].
  destruct v; intros H; injection H as <- _; eexists; reflexivity.
Qed.

Lemma output_enable_stores_outputEnable (s s' : t) (i : Z) (v r : bool) :
  output_enable OutputMask s i v = Some (s', r) ->
  exists o, s' = set_outputEnable s o.
Proof.
  unfold output_enable.
  destruct (gpio_bit (to_u8 i) OutputMask) as [b |]; cbn [bind]; [| discriminate].
  destruct v; intros H; injection H as <- _; eexists; reflexivity.
Qed.

End Masks.

(** C5: at index 32, the width of the register, [gpio_bit] has no defined
    result: the shift [1 << 32] of a 32-bit [int] is undefined, so the function
    does not return 0 there. *)
Theorem gpio_bit_at_register_width :
  gpio_bit 32 0xFFFFFFFF = None /\ is_u8 32.
Proof. split; [reflexivity | unfold is_u8; lia]. Qed.

(** C7: index 256 names no bit of the 17-bit input mask of the board, yet
    [input_get] and [input_debounced_get] return [true] for it when bit 0 of
    the register is set: the index is narrowed to [uint8_t], which maps 256
    to pin 0. *)
Theorem input_get_index_256 :
  is_u32 256 /\
  Z.testbit 0x0001FFFF 256 = false /\
  input_get 0x0001FFFF (mk 0 1 1 0) 256 = Some true /\
  input_debounced_get 0x0001FFFF (mk 0 1 1 0) 256 = Some true.
Proof.
  split; [unfold is_u32; lia |]. repeat split; reflexivity.
Qed.

(** An instance of C2 on a port with [OutputMask = 0x0F]: pin 6. *)
Lemma output_set_out_of_mask_witness :
  gpio_bit 6 0x0F = Some 0 /\
  output_set 0x0F (mk 5 0 0 0) 6 true = Some (mk 5 0 0 0, false).
Proof.
  split; [reflexivity |].
  apply (output_set_out_of_mask 0x0F (mk 5 0 0 0) 6 true).
  - unfold is_u32; cbn; lia.
  - reflexivity.
Defined.

(** An instance of C3 on a port with [OutputMask = 0x0F]: pin 2. *)
Lemma output_set_valid_witness :
  gpio_bit 2 0x0F = Some 4 /\
  (exists s1,
      output_set 0x0F (mk 5 0 0 0) 2 true = Some (s1, true) /\
      Z.testbit (output s1) 2 = true /\
      forall j, j <> 2 -> Z.testbit (output s1) j = Z.testbit 5 j)
  /\
  (exists s0,
      output_set 0x0F (mk 5 0 0 0) 2 false = Some (s0, true) /\
      Z.testbit (output s0) 2 = false /\
      forall j, j <> 2 -> Z.testbit (output s0) j = Z.testbit 5 j).
Proof.
  split; [reflexivity |].
  apply (output_set_valid 0x0F (mk 5 0 0 0) 2 4).
  - unfold is_u32; cbn; lia.
  - reflexivity.
  - discriminate.
Defined.

End SonataGpioFacts.

Module SonataGpioBoardFacts.

Import SonataGpio SonataGpioFacts SonataGpioBoard.

Lemma LEDMask_ones : LEDMask = Z.ones 8.
Proof. reflexivity. Qed.

Lemma SwitchMask_ones : SwitchMask = Z.ones 8.
Proof. reflexivity. Qed.

(** The bits of [Z.ones 8] are the positions 0..7. *)
Lemma testbit_ones8 (j : Z) :
  Z.testbit (Z.ones 8) j = (0 <=? j) && (j <? 8).
Proof.
  destruct (Z.leb_spec 0 j) as [Hj | Hj]; cbn [andb].
  - apply Z.testbit_ones_nonneg; lia.
  - apply Z.testbit_neg_r. exact Hj.
Qed.

(** A value inside the mask [Z.ones 8] has no bit outside 0..7. *)
Lemma in_ones8_bits (b j : Z) :
  Z.land b (Z.ones 8) = b -> ~ 0 <= j <= 7 -> Z.testbit b j = false.
Proof.
  intros Hb Hj. rewrite <- Hb, Z.land_spec, testbit_ones8.
  destruct (Z.leb_spec 0 j); destruct (Z.ltb_spec j 8); cbn [andb];
    try apply andb_false_r; lia.
Qed.

(** [led_bit] never leaves the LED group. *)
Lemma led_bit_in_group (index b j : Z) :
  led_bit index = Some b -> ~ led_pin j -> Z.testbit b j = false.
Proof.
  unfold led_bit. intros H Hj.
  destruct (gpio_bit_in_mask _ _ _ H) as [_ Hm].
  rewrite LEDMask_ones in Hm. apply (in_ones8_bits b j Hm).
  unfold led_pin, FirstLED, LastLED in Hj. exact Hj.
Qed.

(** Inside the register width, [led_bit] is the bit of the LED for an LED
    index and 0 past the group. *)
Lemma led_bit_in_width (index : Z) :
  0 <= index < 32 ->
  led_bit index = Some (if index <? LEDCount then 2 ^ index else 0).
Proof.
  intros Hi. unfold led_bit, FirstLED. rewrite Z.add_0_r.
  assert (H32 : to_u32 index = index) by (apply Z.mod_small; lia).
  assert (H8 : to_u8 index = index) by (apply Z.mod_small; lia).
  rewrite H32, H8, gpio_bit_defined by lia.
  rewrite LEDMask_ones, testbit_ones8.
  holds (0 <=? index). reflexivity.
Qed.

Lemma led_bit_past_group (index : Z) :
  LEDCount <= index < 32 -> led_bit index = Some 0.
Proof.
  intros Hi. assert (Hw : 0 <= index < 32) by (unfold LEDCount in Hi; cbn in Hi; lia).
  rewrite (led_bit_in_width index Hw).
  fails (index <? LEDCount). reflexivity.
Qed.

Lemma led_bit_of_led (index : Z) :
  0 <= index < LEDCount -> led_bit index = Some (2 ^ index).
Proof.
  intros Hi. assert (Hw : 0 <= index < 32) by (unfold LEDCount in Hi; cbn in Hi; lia).
  rewrite (led_bit_in_width index Hw).
  holds (index <? LEDCount). reflexivity.
Qed.

(** The three LED accessors store to [output] a value that differs from the
    old one in LED bits only. *)
Lemma led_accessors_keep_other_bits (s s' : t) (index j : Z) :
  is_u32 (output s) ->
  led_on s index = Some s' \/ led_off s index = Some s' \/
  led_toggle s index = Some s' ->
  ~ led_pin j ->
  Z.testbit (output s') j = Z.testbit (output s) j.
Proof.
  intros Hu Hop Hj. unfold led_on, led_off, led_toggle in Hop.
  destruct (led_bit index) as [b |] eqn:Hb; cbn [bind] in Hop.
  - pose proof (led_bit_in_group index b j Hb Hj) as Hbj.
    destruct Hop as [H | [H | H]]; injection H as <-; cbn [output set_output].
    + rewrite Z.lor_spec, Hbj. apply orb_false_r.
    + rewrite Z.land_spec, testbit_not32, Hbj.
      destruct (Z.leb_spec 0 j) as [Hlo | Hlo]; cbn [andb negb].
      * destruct (Z.ltb_spec j 32) as [Hhi | Hhi]; cbn [andb].
        -- apply andb_true_r.
        -- rewrite (is_u32_testbit_high _ j Hu Hhi). reflexivity.
      * rewrite (Z.testbit_neg_r _ j Hlo). reflexivity.
    + rewrite Z.lxor_spec, Hbj. apply xorb_false_r.
  - destruct Hop as [H | [H | H]]; discriminate H.
Qed.

(** [read_switch] looks at switch bits of [input] only. *)
Lemma read_switch_same_switches (s1 s2 : t) (index : Z) :
  same_switches s1 s2 -> read_switch s1 index = read_switch s2 index.
Proof.
  intros Hsame. unfold read_switch, switch_bit.
  destruct (gpio_bit _ SwitchMask) as [b |] eqn:Hb; cbn [bind]; [| reflexivity].
  destruct (gpio_bit_some _ _ _ Hb) as [Hi Hval].
  rewrite SwitchMask_ones, testbit_ones8 in Hval.
  set (i := to_u8 (to_u32 (index + FirstSwitch))) in *.
  destruct ((0 <=? i) && (i <? 8)) eqn:Hin; subst b.
  - apply andb_true_iff in Hin. destruct Hin as [Hlo Hhi].
    apply Z.leb_le in Hlo. apply Z.ltb_lt in Hhi.
    rewrite !land_pow2_positive by lia. f_equal. apply Hsame.
    unfold switch_pin, FirstSwitch, LastSwitch. lia.
  - rewrite !Z.land_0_r. reflexivity.
Qed.

(** C1, as the code has it: the named accessors mask the computed bit with
    the mask of their group.  On registers holding 32-bit values, an LED
    accessor changes no output bit outside the LED group, and [read_switch]
    gives the same answer on inputs that agree on the switch bits; for an
    index past the group and below the register width the LED accessors leave
    the registers as they were and [read_switch] returns [false]. *)
Theorem named_accessors_masked (s : t) (index : Z) :
  wf s ->
  (forall s',
      led_on s index = Some s' \/ led_off s index = Some s' \/
      led_toggle s index = Some s' ->
      forall j, ~ led_pin j -> Z.testbit (output s') j = Z.testbit (output s) j)
  /\
  (forall s2, same_switches s s2 -> read_switch s index = read_switch s2 index)
  /\
  (LEDCount <= index < 32 ->
   led_on s index = Some s /\ led_off s index = Some s /\
   led_toggle s index = Some s /\ read_switch s index = Some false).
Proof.
  intros [Hu _]. split; [| split].
  - intros s' Hop j Hj.
    exact (led_accessors_keep_other_bits s s' index j Hu Hop Hj).
  - intros s2 Hsame. exact (read_switch_same_switches s s2 index Hsame).
  - intros Hi. unfold led_on, led_off, led_toggle, read_switch.
    change (switch_bit index) with (led_bit index).
    rewrite (led_bit_past_group index Hi). cbn [bind].
    rewrite Z.lor_0_r, Z.lxor_0_r, Z.land_0_r, (land_not32_zero _ Hu).
    rewrite set_output_same. repeat split; reflexivity.
Qed.

(** C1, as stated, does not hold: no index past the group makes an LED
    accessor change a non-LED output bit or makes [read_switch] depend on a
    non-switch input bit. *)
Lemma named_accessors_do_not_reach_adjacent_bits :
  ~ named_accessors_reach_adjacent_bits.
Proof.
  intros [(index & s & s' & _ & _ & [Hu _] & Hop & (j & Hj & Hdiff))
         | (index & s1 & s2 & _ & _ & Hsame & Hdiff)].
  - apply Hdiff.
    exact (led_accessors_keep_other_bits s s' index j Hu Hop Hj).
  - apply Hdiff. exact (read_switch_same_switches s1 s2 index Hsame).
Qed.

(** An instance of C1 as amended: index 8, the first one past the LEDs, on a
    register file with all sixteen low output bits set. *)
Lemma named_accessors_masked_witness :
  wf (mk 0xFFFF 0xFFFF 0 0) /\
  led_on (mk 0xFFFF 0xFFFF 0 0) 8 = Some (mk 0xFFFF 0xFFFF 0 0) /\
  led_off (mk 0xFFFF 0xFFFF 0 0) 8 = Some (mk 0xFFFF 0xFFFF 0 0) /\
  led_toggle (mk 0xFFFF 0xFFFF 0 0) 8 = Some (mk 0xFFFF 0xFFFF 0 0) /\
  read_switch (mk 0xFFFF 0xFFFF 0 0) 8 = Some false.
Proof.
  assert (Hwf : wf (mk 0xFFFF 0xFFFF 0 0)) by (unfold wf, is_u32; cbn; lia).
  split; [exact Hwf |].
  apply (named_accessors_masked (mk 0xFFFF 0xFFFF 0 0) 8 Hwf).
  unfold LEDCount, LastLED, FirstLED; lia.
Defined.

(** Toggling twice with the same bit restores the register file, at every
    index for which the call is defined. *)
Lemma led_toggle_undoes_itself (s s1 : t) (index : Z) :
  led_toggle s index = Some s1 -> led_toggle s1 index = Some s.
Proof.
  unfold led_toggle.
  destruct (led_bit index) as [b |]; cbn [bind]; [| discriminate].
  intros H. injection H as <-. cbn [output set_output].
  rewrite Z.lxor_assoc, Z.lxor_nilpotent, Z.lxor_0_r.
  destruct s; reflexivity.
Qed.

(** C8: for an LED index [i], two calls of [led_toggle i] in succession are
    defined and leave [output], and the whole register file, as it was. *)
Theorem led_toggle_twice (s : t) (i : Z) :
  0 <= i < LEDCount ->
  (s1 <- led_toggle s i ;; led_toggle s1 i) = Some s.
Proof.
  intros Hi.
  assert (H1 : led_toggle s i = Some (set_output s (Z.lxor (output s) (2 ^ i)))).
  { unfold led_toggle. rewrite (led_bit_of_led i Hi). reflexivity. }
  rewrite H1. cbn [bind]. exact (led_toggle_undoes_itself _ _ i H1).
Qed.

(** An instance of C8: LED 3 on a register file with LEDs 0 and 2 lit. *)
Lemma led_toggle_twice_witness :
  (s1 <- led_toggle (mk 5 0 0 0) 3 ;; led_toggle s1 3) = Some (mk 5 0 0 0).
Proof.
  apply (led_toggle_twice (mk 5 0 0 0) 3).
  unfold LEDCount, LastLED, FirstLED; lia.
Defined.

(** C10: each mutating operation stores to one register.  [output_set],
    [led_on], [led_off] and [led_toggle] leave [input], [debouncedInput] and
    [outputEnable] as they were; [output_enable] leaves [output], [input] and
    [debouncedInput] as they were. *)
Theorem gpio_store_frame (OutputMask : Z) (s s' : t) (i : Z) (v : bool) :
  ((exists r, output_set OutputMask s i v = Some (s', r)) \/
   led_on s i = Some s' \/ led_off s i = Some s' \/
   led_toggle s i = Some s' ->
   input s' = input s /\ debouncedInput s' = debouncedInput s /\
   outputEnable s' = outputEnable s)
  /\
  ((exists r, output_enable OutputMask s i v = Some (s', r)) ->
   output s' = output s /\ input s' = input s /\
   debouncedInput s' = debouncedInput s).
Proof.
  split.
  - intros [[r H] | H].
    + destruct (output_set_stores_output OutputMask s s' i v r H) as [o ->].
      repeat split; reflexivity.
    + unfold led_on, led_off, led_toggle in H.
      destruct (led_bit i) as [b |]; cbn [bind] in H.
      * destruct H as [H | [H | H]]; injection H as <-;
          repeat split; reflexivity.
      * destruct H as [H | [H | H]]; discriminate H.
  - intros [r H].
    destruct (output_enable_stores_outputEnable OutputMask s s' i v r H) as [o ->].
    repeat split; reflexivity.
Qed.

(** An instance of C10: [output_set], [led_toggle] and [output_enable] of
    pin 2 on a port with [OutputMask = 0x0F] whose four registers hold
    different values. *)
Lemma gpio_store_frame_witness :
  (output_set 0x0F (mk 1 6 7 8) 2 true = Some (mk 5 6 7 8, true) /\
   input (mk 5 6 7 8) = 6 /\ debouncedInput (mk 5 6 7 8) = 7 /\
   outputEnable (mk 5 6 7 8) = 8) /\
  (led_toggle (mk 1 6 7 8) 2 = Some (mk 5 6 7 8) /\
   input (mk 5 6 7 8) = 6 /\ debouncedInput (mk 5 6 7 8) = 7 /\
   outputEnable (mk 5 6 7 8) = 8) /\
  (output_enable 0x0F (mk 1 6 7 8) 2 true = Some (mk 1 6 7 12, true) /\
   output (mk 1 6 7 12) = 1 /\ input (mk 1 6 7 12) = 6 /\
   debouncedInput (mk 1 6 7 12) = 7).
Proof.
  split; [| split]; (split; [reflexivity |]).
  - apply (gpio_store_frame 0x0F (mk 1 6 7 8) (mk 5 6 7 8) 2 true).
    left. exists true. reflexivity.
  - apply (gpio_store_frame 0x0F (mk 1 6 7 8) (mk 5 6 7 8) 2 true).
    right. right. right. reflexivity.
  - apply (gpio_store_frame 0x0F (mk 1 6 7 8) (mk 1 6 7 12) 2 true).
    exists true. reflexivity.
Defined.

End SonataGpioBoardFacts.

Module OpenTitanUartFacts.

Import OpenTitanUart.

(** The low byte of a register, arithmetically. *)
Lemma land_0xff (v : Z) : Z.land v 0xff = v mod 2 ^ 8.
Proof. change 0xff with (Z.ones 8). apply Z.land_ones. lia. Qed.

(** C6: [can_write()] is [true] exactly when the low 8 bits of [fifoStatus],
    the transmit FIFO occupancy, are below 32; at occupancy 32 it is
    [false]. *)
Theorem can_write_iff_below_depth (s : t) :
  (can_write s = true <-> fifoStatus s mod 2 ^ 8 < 32) /\
  (fifoStatus s mod 2 ^ 8 = 32 -> can_write s = false).
Proof.
  unfold can_write. rewrite land_0xff. split.
  - apply Z.ltb_lt.
  - intros H. apply Z.ltb_ge. lia.
Qed.

(** An instance of C6 at the boundary: occupancy 32 with a non-empty receive
    FIFO recorded in the upper half of [fifoStatus]. *)
Lemma can_write_iff_below_depth_witness :
  can_write (mk 0 0 0 0 0 0 0 0 0 0x00010020 0 0 0) = false.
Proof.
  apply (can_write_iff_below_depth (mk 0 0 0 0 0 0 0 0 0 0x00010020 0 0 0)).
  reflexivity.
Defined.

(** The quotient of [init] fits the 16-bit NCO field when the baud rate is
    below a sixteenth of the clock. *)
Lemma nco_bounds (clock baud : Z) :
  0 <= baud -> 0 < clock -> 16 * baud < clock ->
  0 <= baud * 2 ^ 20 / clock < 2 ^ 16.
Proof.
  intros Hb Hc Hlt. split.
  - apply Z.div_pos; lia.
  - apply Z.div_lt_upper_bound; lia.
Qed.

(** C4: for a baud rate of the [unsigned] type and a clock above sixteen
    times the baud rate (the rates the 16-bit NCO field can hold), [init]
    stores [(NCO << 16) | 0b11] to [ctrl] with
    [NCO = floor (baudRate * 2^20 / clock)], no intermediate result being cut
    by the 64-bit and 32-bit widths; at 115200 baud and 50 MHz, [ctrl] is
    [(floor ((115200 << 20) / 50000000) << 16) | 0b11]. *)
Theorem init_sets_ctrl :
  (forall (CPU_TIMER_HZ baudRate : Z) (s : t),
      0 <= baudRate < 2 ^ 32 ->
      0 < CPU_TIMER_HZ < 2 ^ 64 ->
      16 * baudRate < CPU_TIMER_HZ ->
      init CPU_TIMER_HZ s baudRate =
      Some (set_ctrl s
              (Z.lor (Z.shiftl (baudRate * 2 ^ 20 / CPU_TIMER_HZ) 16) 3)))
  /\
  (forall s : t,
      option_map ctrl (init 50000000 s 115200) =
      Some (Z.lor (Z.shiftl (Z.shiftl 115200 20 / 50000000) 16) 3)).
Proof.
  split.
  - intros clock baud s Hb Hc Hlt. unfold init.
    assert (Hd : to_u64 clock = clock) by (apply Z.mod_small; lia).
    rewrite Hd.
    fails (clock =? 0).
    assert (Hb64 : to_u64 baud = baud) by (apply Z.mod_small; lia).
    rewrite Hb64, !Z.shiftl_mul_pow2 by lia.
    assert (Hs64 : to_u64 (baud * 2 ^ 20) = baud * 2 ^ 20)
      by (apply Z.mod_small; lia).
    rewrite Hs64.
    pose proof (nco_bounds clock baud (proj1 Hb) (proj1 Hc) Hlt) as Hq.
    set (q := baud * 2 ^ 20 / clock) in *.
    assert (Hq32 : to_u32 q = q) by (apply Z.mod_small; lia).
    rewrite Hq32.
    assert (Hsh : to_u32 (q * 2 ^ 16) = q * 2 ^ 16)
      by (apply Z.mod_small; lia).
    rewrite Hsh. reflexivity.
  - intros s. reflexivity.
Qed.

(** An instance of C4: 115200 baud on a 50 MHz clock gives NCO = 2415. *)
Lemma init_sets_ctrl_witness :
  init 50000000 (mk 0 0 0 0 0 0 0 0 0 0 0 0 0) 115200 =
  Some (mk 0 0 0 0 (Z.lor (Z.shiftl 2415 16) 3) 0 0 0 0 0 0 0 0).
Proof.
  apply (proj1 init_sets_ctrl 50000000 115200 (mk 0 0 0 0 0 0 0 0 0 0 0 0 0));
    lia.
Defined.

(** *** The run of [blocking_write] *)

Lemma can_write_shown (s : t) (v : Z) :
  can_write (set_fifoStatus s v) = (v mod 2 ^ 8 <? 32).
Proof. unfold can_write. cbn [fifoStatus set_fifoStatus]. rewrite land_0xff. reflexivity. Qed.

Lemma blocking_write_S (fifo : nat -> Z) (s : t) (byte : Z) (n : nat) :
  blocking_write fifo s byte (S n) =
  step fifo byte (blocking_write fifo s byte n).
Proof. reflexivity. Qed.

Lemma polled_S (fifo : nat -> Z) (n : nat) :
  polled fifo (S n) = polled fifo n ++ [Load_fifoStatus (fifo n)].
Proof. unfold polled. rewrite seq_S, map_app. reflexivity. Qed.

Lemma stores_app (l1 l2 : list event) :
  stores (l1 ++ l2) = stores l1 ++ stores l2.
Proof. unfold stores. apply flat_map_app. Qed.

Lemma stores_polled (fifo : nat -> Z) (n : nat) : stores (polled fifo n) = [].
Proof.
  induction n as [| n IH].
  - reflexivity.
  - rewrite polled_S, stores_app, IH. reflexivity.
Qed.

(** As long as every load has shown a full FIFO the call is still in its
    loop, and it has done nothing but load [fifoStatus]. *)
Lemma spinning (fifo : nat -> Z) (s : t) (byte : Z) (n : nat) :
  full_until fifo n ->
  let r := blocking_write fifo s byte n in
  at_point r = Polling /\ loads r = n /\
  trace r = polled fifo n /\ wData (regs r) = wData s.
Proof.
  induction n as [| n IH]; intros Hfull.
  - repeat split; reflexivity.
  - assert (Hprev : full_until fifo n)
      by (intros k Hk; apply Hfull; lia).
    destruct (IH Hprev) as (Hat & Hloads & Htrace & Hw).
    cbv zeta. rewrite blocking_write_S. unfold step. rewrite Hat.
    cbn [at_point loads trace regs]. rewrite can_write_shown, Hloads, Htrace.
    pose proof (Hfull n (Nat.lt_succ_diag_r n)) as Hn.
    fails (fifo n mod 2 ^ 8 <? 32).
    rewrite polled_S. repeat split; try reflexivity. exact Hw.
Qed.

(** Once returned, the call takes no further step. *)
Lemma returned_stays (fifo : nat -> Z) (s : t) (byte : Z) (m n : nat) :
  at_point (blocking_write fifo s byte m) = Returned ->
  (m <= n)%nat ->
  blocking_write fifo s byte n = blocking_write fifo s byte m.
Proof.
  intros Hret Hle. induction Hle as [| n Hle IH].
  - reflexivity.
  - rewrite blocking_write_S, IH. unfold step. rewrite Hret. reflexivity.
Qed.

(** The first load that shows room is followed by the store, and the store
    by the return. *)
Lemma first_room (fifo : nat -> Z) (s : t) (byte : Z) (k : nat) :
  full_until fifo k ->
  fifo k mod 2 ^ 8 < 32 ->
  let r1 := blocking_write fifo s byte (S k) in
  let r2 := blocking_write fifo s byte (S (S k)) in
  (at_point r1 = Storing /\ trace r1 = polled fifo (S k) /\
   wData (regs r1) = wData s) /\
  (at_point r2 = Returned /\
   trace r2 = polled fifo (S k) ++ [Store_wData byte] /\
   wData (regs r2) = byte).
Proof.
  intros Hfull Hroom.
  destruct (spinning fifo s byte k Hfull) as (Hat & Hloads & Htrace & Hw).
  assert (H1 : let r1 := blocking_write fifo s byte (S k) in
               at_point r1 = Storing /\ trace r1 = polled fifo (S k) /\
               wData (regs r1) = wData s).
  { cbv zeta. rewrite blocking_write_S. unfold step. rewrite Hat.
    cbn [at_point loads trace regs]. rewrite can_write_shown, Hloads, Htrace.
    holds (fifo k mod 2 ^ 8 <? 32).
    rewrite polled_S. repeat split; try reflexivity. exact Hw. }
  cbv zeta in *. destruct H1 as (Hat1 & Htrace1 & Hw1).
  split; [repeat split; assumption |].
  rewrite (blocking_write_S fifo s byte (S k)).
  set (r1 := blocking_write fifo s byte (S k)) in *.
  unfold step. rewrite Hat1. cbn [at_point trace regs]. rewrite Htrace1.
  repeat split; reflexivity.
Qed.

(** C9: the run of [blocking_write byte] against a device showing [fifo].
    (1) While every load so far has shown an occupancy of 32 or more, the
    call is in its loop and has stored nothing to [wData].  (2) At the first
    load that shows an occupancy below 32 the loop exits, the next step stores
    [byte] to [wData], and the call returns having stored exactly once.
    (3) If the occupancy is 32 or more at every load, the call is never at its
    return, however many steps it takes. *)
Theorem blocking_write_run (fifo : nat -> Z) (s : t) (byte : Z) :
  (forall r v, can_write (set_fifoStatus r v) = false <-> 32 <= v mod 2 ^ 8)
  /\
  (forall n, full_until fifo n ->
     let r := blocking_write fifo s byte n in
     at_point r = Polling /\ stores (trace r) = [] /\
     wData (regs r) = wData s)
  /\
  (forall k, full_until fifo k -> fifo k mod 2 ^ 8 < 32 ->
     at_point (blocking_write fifo s byte (S k)) = Storing /\
     stores (trace (blocking_write fifo s byte (S k))) = [] /\
     forall n, (k + 2 <= n)%nat ->
       let r := blocking_write fifo s byte n in
       at_point r = Returned /\
       trace r = polled fifo (S k) ++ [Store_wData byte] /\
       stores (trace r) = [byte] /\
       wData (regs r) = byte)
  /\
  ((forall k, 32 <= fifo k mod 2 ^ 8) ->
   forall n, at_point (blocking_write fifo s byte n) = Polling).
Proof.
  split; [| split; [| split]].
  - intros r v. rewrite can_write_shown. apply Z.ltb_ge.
  - intros n Hfull.
    destruct (spinning fifo s byte n Hfull) as (Hat & _ & Htrace & Hw).
    cbv zeta. rewrite Htrace, stores_polled. repeat split; assumption.
  - intros k Hfull Hroom.
    destruct (first_room fifo s byte k Hfull Hroom)
      as ((Hat1 & Htrace1 & _) & (Hat2 & Htrace2 & Hw2)).
    split; [exact Hat1 |]. split; [rewrite Htrace1; apply stores_polled |].
    intros n Hn. cbv zeta.
    rewrite (returned_stays fifo s byte (S (S k)) n Hat2) by lia.
    rewrite Htrace2, stores_app, stores_polled.
    repeat split; try reflexivity; assumption.
  - intros Hfull n.
    apply (spinning fifo s byte n). intros k _. apply Hfull.
Qed.

(** An instance of C9: the FIFO is full (occupancy 32) at the first three
    loads and empty at the fourth; the byte 0x41 is stored once, right after
    the fourth load. *)
Lemma blocking_write_run_witness :
  let fifo := fun k : nat => if (k <? 3)%nat then 32 else 0 in
  let r := blocking_write fifo (mk 0 0 0 0 0 0 0 0 0 0 0 0 0) 0x41 5 in
  at_point r = Returned /\
  trace r =
    [Load_fifoStatus 32; Load_fifoStatus 32; Load_fifoStatus 32;
     Load_fifoStatus 0; Store_wData 0x41] /\
  stores (trace r) = [0x41] /\
  wData (regs r) = 0x41.
Proof.
  cbv zeta.
  destruct (blocking_write_run (fun k : nat => if (k <? 3)%nat then 32 else 0)
              (mk 0 0 0 0 0 0 0 0 0 0 0 0 0) 0x41) as (_ & _ & Hroom & _).
  apply (Hroom 3%nat).
  - intros k Hk. destruct k as [| [| [| k]]]; cbn; lia.
  - cbn. lia.
  - lia.
Defined.

End OpenTitanUartFacts.

(** * Further properties of the drivers *)

(** ** Bitwise reasoning on 32-bit values *)

Lemma is_u32_of_bits (x : Z) :
  0 <= x -> (forall j, 32 <= j -> Z.testbit x j = false) -> is_u32 x.
Proof.
  intros Hx Hhigh.
  assert (Hmod : x mod 2 ^ 32 = x).
  { apply Z.bits_inj'. intros j Hj.
    destruct (Z.ltb_spec j 32) as [Hlt | Hge].
    - apply Z.mod_pow2_bits_low. exact Hlt.
    - rewrite Z.mod_pow2_bits_high by lia. symmetry. apply Hhigh. exact Hge. }
  unfold is_u32. rewrite <- Hmod. apply Z.mod_pos_bound. lia.
Qed.

Lemma to_u32_is_u32 (x : Z) : is_u32 (to_u32 x).
Proof. unfold is_u32, to_u32. apply Z.mod_pos_bound. lia. Qed.

Lemma not32_is_u32 (x : Z) : is_u32 (not32 x).
Proof. apply to_u32_is_u32. Qed.

Lemma lor_is_u32 (x y : Z) : is_u32 x -> is_u32 y -> is_u32 (Z.lor x y).
Proof.
  intros Hx Hy. apply is_u32_of_bits.
  - apply Z.lor_nonneg. unfold is_u32 in *. lia.
  - intros j Hj. rewrite Z.lor_spec.
    rewrite (is_u32_testbit_high x j Hx Hj), (is_u32_testbit_high y j Hy Hj).
    reflexivity.
Qed.

Lemma land_is_u32 (x y : Z) : is_u32 x -> is_u32 (Z.land x y).
Proof.
  intros Hx. apply is_u32_of_bits.
  - apply Z.land_nonneg. unfold is_u32 in Hx. lia.
  - intros j Hj. rewrite Z.land_spec, (is_u32_testbit_high x j Hx Hj).
    reflexivity.
Qed.

Lemma lxor_is_u32 (x y : Z) : is_u32 x -> is_u32 y -> is_u32 (Z.lxor x y).
Proof.
  intros Hx Hy. apply is_u32_of_bits.
  - apply Z.lxor_nonneg. unfold is_u32 in *. lia.
  - intros j Hj. rewrite Z.lxor_spec.
    rewrite (is_u32_testbit_high x j Hx Hj), (is_u32_testbit_high y j Hy Hj).
    reflexivity.
Qed.

(** Narrowing to [uint8_t] forgets multiples of 256, also after a narrowing
    to [uint32_t]. *)
Lemma to_u8_add_256 (x k : Z) : to_u8 (x + 256 * k) = to_u8 x.
Proof.
  unfold to_u8. change (2 ^ 8) with 256.
  rewrite (Z.mul_comm 256 k). apply Z.mod_add. lia.
Qed.

Lemma to_u8_to_u32 (x : Z) : to_u8 (to_u32 x) = to_u8 x.
Proof.
  unfold to_u8, to_u32. apply Z.mod_mod_divide.
  exists (2 ^ 24). reflexivity.
Qed.

Create Rewrite HintDb bits.

#[local] Hint Rewrite Z.lor_spec Z.land_spec Z.lxor_spec testbit_not32 : bits.

(** Prove an equation between bitwise expressions position by position. *)
Ltac bitwise j Hj :=
  apply Z.bits_inj'; intros j Hj; autorewrite with bits.

Module SonataGpioLaws.

Import SonataGpio SonataGpioFacts.

(** The bits of the result of [gpio_bit]. *)
Lemma testbit_gpio_bit (i m b j : Z) :
  gpio_bit i m = Some b ->
  Z.testbit b j = Z.testbit m i && (i =? j).
Proof.
  intros H. destruct (gpio_bit_some i m b H) as [Hi ->].
  destruct (Z.testbit m i); cbn [andb].
  - apply Z.pow2_bits_eqb. lia.
  - apply Z.bits_0.
Qed.

Lemma gpio_bit_zero_iff (i m b : Z) :
  gpio_bit i m = Some b -> negb (b =? 0) = Z.testbit m i.
Proof.
  intros H. destruct (gpio_bit_some i m b H) as [Hi ->].
  destruct (Z.testbit m i).
  - apply negb_true_iff, Z.eqb_neq. pose proof (Z.pow_pos_nonneg 2 i). lia.
  - reflexivity.
Qed.

Lemma set_output_twice (s : t) (a b : Z) :
  set_output (set_output s a) b = set_output s b.
Proof. reflexivity. Qed.

(** X1: inside the register width, [gpio_bit index mask] is
    [(1 << index) & mask], which is the single bit [2 ^ index] when the mask
    has that bit and 0 when it has not. *)
Theorem gpio_bit_single_bit (index mask : Z) :
  0 <= index < 32 ->
  gpio_bit index mask = Some (Z.land (Z.shiftl 1 index) mask) /\
  Z.land (Z.shiftl 1 index) mask =
    (if Z.testbit mask index then 2 ^ index else 0).
Proof.
  intros Hi. split.
  - apply gpio_bit_in_width. exact Hi.
  - rewrite Z.shiftl_1_l. apply land_pow2. lia.
Qed.

Lemma gpio_bit_single_bit_witness :
  gpio_bit 31 0xFFFFFFFF = Some (Z.land (Z.shiftl 1 31) 0xFFFFFFFF) /\
  Z.land (Z.shiftl 1 31) 0xFFFFFFFF = 2 ^ 31.
Proof. apply (gpio_bit_single_bit 31 0xFFFFFFFF). lia. Defined.

Section Masks.

Variables OutputMask InputMask : Z.

(** X2: the result of [output_set] and of [output_enable] says whether the
    pin is in [OutputMask]: whenever the call is defined, the boolean is the
    mask's bit at the index ([output_enable] narrowing its index to
    [uint8_t]). *)
Theorem output_result_is_mask_bit (s s' : t) (i : Z) (v r : bool) :
  (output_set OutputMask s i v = Some (s', r) ->
   0 <= i < 32 /\ r = Z.testbit OutputMask i)
  /\
  (output_enable OutputMask s i v = Some (s', r) ->
   0 <= to_u8 i < 32 /\ r = Z.testbit OutputMask (to_u8 i)).
Proof.
  split.
  - unfold output_set.
    destruct (gpio_bit i OutputMask) as [b |] eqn:Hb; cbn [bind];
      [| discriminate].
    intros H. injection H as _ <-.
    split; [exact (proj1 (gpio_bit_some _ _ _ Hb)) |].
    exact (gpio_bit_zero_iff _ _ _ Hb).
  - unfold output_enable.
    destruct (gpio_bit (to_u8 i) OutputMask) as [b |] eqn:Hb; cbn [bind];
      [| discriminate].
    intros H. injection H as _ <-.
    split; [exact (proj1 (gpio_bit_some _ _ _ Hb)) |].
    exact (gpio_bit_zero_iff _ _ _ Hb).
Qed.

End Masks.

Lemma output_result_is_mask_bit_witness :
  (output_set 0x0F (mk 1 2 3 4) 5 true = Some (mk 1 2 3 4, false) /\
   Z.testbit 0x0F 5 = false) /\
  (output_enable 0x0F (mk 1 2 3 4) 259 true = Some (mk 1 2 3 12, true) /\
   Z.testbit 0x0F (to_u8 259) = true).
Proof.
  split; (split; [reflexivity | symmetry]).
  - apply (output_result_is_mask_bit 0x0F (mk 1 2 3 4) (mk 1 2 3 4) 5 true false).
    reflexivity.
  - apply (output_result_is_mask_bit 0x0F (mk 1 2 3 4) (mk 1 2 3 12) 259 true true).
    reflexivity.
Defined.

(** Decide a goal that is a boolean identity over bit tests. *)
Ltac bit_cases :=
  repeat match goal with
         | |- context [Z.testbit ?x ?j] => destruct (Z.testbit x j)
         | |- context [Z.eqb ?x ?y] => destruct (Z.eqb x y)
         end;
  reflexivity.

(** Split on whether position [j] lies inside the register, where the bits
    of the 32-bit values [o] and [b] above it are known. *)
Ltac in_register j Hj o Ho b Hb :=
  holds (0 <=? j);
  let Hhi := fresh "Hhi" in
  destruct (Z.ltb_spec j 32) as [Hhi | Hhi];
  [| rewrite ?(is_u32_testbit_high o j Ho Hhi),
             ?(is_u32_testbit_high b j Hb Hhi)];
  cbn [andb orb negb].

(** The two stores of [output_set] and [output_enable], composed on one
    bit: the later store decides. *)
Lemma write_bit_twice (o b : Z) (v w : bool) :
  is_u32 o -> is_u32 b ->
  (if w then Z.lor (if v then Z.lor o b else Z.land o (not32 b)) b
   else Z.land (if v then Z.lor o b else Z.land o (not32 b)) (not32 b)) =
  (if w then Z.lor o b else Z.land o (not32 b)).
Proof.
  intros Ho Hb. destruct v, w; bitwise j Hj;
    in_register j Hj o Ho b Hb; bit_cases.
Qed.

(** The two stores on bits [a] and [b] that share no position commute. *)
Lemma write_bits_commute (o a b : Z) (v w : bool) :
  is_u32 a -> is_u32 b ->
  (forall j, Z.testbit a j && Z.testbit b j = false) ->
  (if w then Z.lor (if v then Z.lor o a else Z.land o (not32 a)) b
   else Z.land (if v then Z.lor o a else Z.land o (not32 a)) (not32 b)) =
  (if v then Z.lor (if w then Z.lor o b else Z.land o (not32 b)) a
   else Z.land (if w then Z.lor o b else Z.land o (not32 b)) (not32 a)).
Proof.
  intros Ha Hb Hdisj. destruct v, w; bitwise j Hj; specialize (Hdisj j);
    in_register j Hj a Ha b Hb;
    destruct (Z.testbit o j), (Z.testbit a j), (Z.testbit b j);
    cbn in Hdisj |- *; congruence.
Qed.

Section Composition.

Variables OutputMask InputMask : Z.

Lemma output_set_unfold (s : t) (i b : Z) (v : bool) :
  gpio_bit i OutputMask = Some b ->
  output_set OutputMask s i v =
  Some (set_output s (if v then Z.lor (output s) b
                      else Z.land (output s) (not32 b)),
        negb (b =? 0)).
Proof.
  intros Hb. unfold output_set. rewrite Hb. cbn [bind]. destruct v; reflexivity.
Qed.

Lemma output_enable_unfold (s : t) (i b : Z) (v : bool) :
  gpio_bit (to_u8 i) OutputMask = Some b ->
  output_enable OutputMask s i v =
  Some (set_outputEnable s (if v then Z.lor (outputEnable s) b
                            else Z.land (outputEnable s) (not32 b)),
        negb (b =? 0)).
Proof.
  intros Hb. unfold output_enable. rewrite Hb. cbn [bind].
  destruct v; reflexivity.
Qed.

Lemma output_set_undefined (s : t) (i : Z) (v : bool) :
  gpio_bit i OutputMask = None -> output_set OutputMask s i v = None.
Proof. intros Hb. unfold output_set. rewrite Hb. reflexivity. Qed.

(** X3: the last write to a pin wins.  On a 32-bit [output], an
    [output_set i v] followed by [output_set i w] leaves the registers, and
    returns the result, of [output_set i w] alone; with [v = w] the second
    call changes nothing. *)
Theorem output_set_last_write_wins (s s1 : t) (i : Z) (v w r1 : bool) :
  is_u32 (output s) ->
  output_set OutputMask s i v = Some (s1, r1) ->
  output_set OutputMask s1 i w = output_set OutputMask s i w.
Proof.
  intros Hu H1.
  destruct (gpio_bit i OutputMask) as [b |] eqn:Hb.
  - destruct (gpio_bit_in_mask _ _ _ Hb) as [Hbu _].
    rewrite (output_set_unfold s i b v Hb) in H1. injection H1 as <- _.
    rewrite !(output_set_unfold _ i b w Hb).
    rewrite set_output_twice. cbn [output set_output].
    rewrite (write_bit_twice (output s) b v w Hu Hbu). reflexivity.
  - rewrite (output_set_undefined s i v Hb) in H1. discriminate H1.
Qed.

(** X4: writes to different pins commute: [output_set i v] then
    [output_set j w] leaves the registers that [output_set j w] then
    [output_set i v] leaves, and one order is defined when the other is. *)
Theorem output_set_commute (s : t) (i j : Z) (v w : bool) :
  i <> j ->
  (a <- output_set OutputMask s i v ;;
   b <- output_set OutputMask (fst a) j w ;; Some (fst b)) =
  (b <- output_set OutputMask s j w ;;
   a <- output_set OutputMask (fst b) i v ;; Some (fst a)).
Proof.
  intros Hij.
  destruct (gpio_bit i OutputMask) as [a |] eqn:Ha;
    destruct (gpio_bit j OutputMask) as [b |] eqn:Hb.
  - rewrite (output_set_unfold s i a v Ha), (output_set_unfold s j b w Hb).
    cbn [bind fst].
    rewrite (output_set_unfold _ j b w Hb), (output_set_unfold _ i a v Ha).
    cbn [bind fst]. rewrite !set_output_twice. cbn [output set_output].
    rewrite (write_bits_commute (output s) a b v w
               (proj1 (gpio_bit_in_mask _ _ _ Ha))
               (proj1 (gpio_bit_in_mask _ _ _ Hb))); [reflexivity |].
    intros p. rewrite (testbit_gpio_bit _ _ _ p Ha), (testbit_gpio_bit _ _ _ p Hb).
    destruct (Z.eqb_spec i p) as [-> | Hip];
      destruct (Z.eqb_spec j p) as [-> | Hjp];
      rewrite ?andb_false_r; try reflexivity; contradiction.
  - rewrite (output_set_unfold s i a v Ha). cbn [bind fst].
    rewrite !(output_set_undefined _ j w Hb). reflexivity.
  - rewrite (output_set_unfold s j b w Hb). cbn [bind fst].
    rewrite !(output_set_undefined _ i v Ha). reflexivity.
  - rewrite (output_set_undefined s i v Ha), (output_set_undefined s j w Hb).
    reflexivity.
Qed.

End Composition.

Lemma output_set_last_write_wins_witness :
  output_set 0x0F (mk 5 2 3 4) 2 false = Some (mk 1 2 3 4, true) /\
  output_set 0x0F (mk 1 2 3 4) 2 true = output_set 0x0F (mk 5 2 3 4) 2 true.
Proof.
  split; [reflexivity |].
  apply (output_set_last_write_wins 0x0F (mk 5 2 3 4) (mk 1 2 3 4) 2 false true true).
  - unfold is_u32; cbn; lia.
  - reflexivity.
Defined.

Lemma output_set_commute_witness :
  (a <- output_set 0x0F (mk 1 2 3 4) 0 false ;;
   b <- output_set 0x0F (fst a) 3 true ;; Some (fst b)) =
  (b <- output_set 0x0F (mk 1 2 3 4) 3 true ;;
   a <- output_set 0x0F (fst b) 0 false ;; Some (fst a)).
Proof. apply (output_set_commute 0x0F (mk 1 2 3 4) 0 3 false true). lia. Defined.

(** The bits of the value either store writes. *)
Lemma testbit_write_bit (o b j : Z) (v : bool) :
  is_u32 o -> is_u32 b ->
  Z.testbit (if v then Z.lor o b else Z.land o (not32 b)) j =
  (if Z.testbit b j then v else Z.testbit o j).
Proof.
  intros Ho Hb. destruct (Z.leb_spec 0 j) as [Hj | Hj].
  - destruct v; autorewrite with bits; in_register j Hj o Ho b Hb; bit_cases.
  - rewrite !(Z.testbit_neg_r _ j Hj). reflexivity.
Qed.

Lemma write_bit_is_u32 (o b : Z) (v : bool) :
  is_u32 o -> is_u32 b ->
  is_u32 (if v then Z.lor o b else Z.land o (not32 b)).
Proof.
  intros Ho Hb. destruct v.
  - apply lor_is_u32; assumption.
  - apply land_is_u32. exact Ho.
Qed.

Section Access.

Variables OutputMask InputMask : Z.

(** X5: for an index inside the register width, [output_enable] returns the
    mask's bit at the index; on a 32-bit [outputEnable] it gives bit [index]
    the value [enable] when the mask has that bit, and leaves every other
    bit, and every bit when the mask has not, as it was. *)
Theorem output_enable_in_width (s : t) (index : Z) (enable : bool) :
  0 <= index < 32 ->
  is_u32 (outputEnable s) ->
  exists s',
    output_enable OutputMask s index enable =
      Some (s', Z.testbit OutputMask index) /\
    forall j,
      Z.testbit (outputEnable s') j =
      (if (index =? j) && Z.testbit OutputMask index
       then enable else Z.testbit (outputEnable s) j).
Proof.
  intros Hi Hu.
  assert (Hcast : to_u8 index = index) by (apply Z.mod_small; lia).
  pose proof (gpio_bit_defined index OutputMask Hi) as Hb.
  rewrite <- Hcast in Hb at 1.
  set (b := if Z.testbit OutputMask index then 2 ^ index else 0) in *.
  rewrite Hcast in Hb.
  eexists. split.
  - rewrite (output_enable_unfold OutputMask s index b enable)
      by (rewrite Hcast; exact Hb).
    rewrite (gpio_bit_zero_iff _ _ _ Hb). reflexivity.
  - intros j. cbn [outputEnable set_outputEnable].
    rewrite (testbit_write_bit _ b j enable Hu
               (proj1 (gpio_bit_in_mask _ _ _ Hb))).
    rewrite (testbit_gpio_bit _ _ _ j Hb), andb_comm. reflexivity.
Qed.

(** X6: for an index inside the register width, [input_get] and
    [input_debounced_get] return the bit of their register at the index when
    [InputMask] has that bit, and [false] when it has not. *)
Theorem input_get_in_width (s : t) (index : Z) :
  0 <= index < 32 ->
  input_get InputMask s index =
    Some (Z.testbit (input s) index && Z.testbit InputMask index) /\
  input_debounced_get InputMask s index =
    Some (Z.testbit (debouncedInput s) index && Z.testbit InputMask index).
Proof.
  intros Hi. unfold input_get, input_debounced_get.
  assert (Hcast : to_u8 index = index) by (apply Z.mod_small; lia).
  rewrite Hcast, (gpio_bit_defined index InputMask Hi). cbn [bind].
  destruct (Z.testbit InputMask index).
  - rewrite !land_pow2_positive, !andb_true_r by lia. split; reflexivity.
  - rewrite !Z.land_0_r, !andb_false_r. split; reflexivity.
Qed.

(** X7: the compile-time-indexed forms are well-formed exactly when the
    run-time call at that index succeeds, and then they are that call:
    [output_enable<Index>] yields [s'] iff [output_enable(Index)] yields [s']
    with result [true]; [input_get<Index>] yields [r] iff [input_get(Index)]
    yields [r] and [InputMask] has the bit of the narrowed index. *)
Theorem static_index_forms (Index : Z) (s s' : t) (enable r : bool) :
  (output_enable_static OutputMask Index s enable = Some s' <->
   output_enable OutputMask s Index enable = Some (s', true))
  /\
  (input_get_static InputMask Index s = Some r <->
   input_get InputMask s Index = Some r /\
   Z.testbit InputMask (to_u8 Index) = true).
Proof.
  split.
  - unfold output_enable_static.
    destruct (gpio_bit (to_u8 Index) OutputMask) as [b |] eqn:Hb; cbn [bind].
    + rewrite (output_enable_unfold OutputMask s Index b enable Hb).
      destruct (b =? 0); cbn [bind fst negb]; split; intros H;
        try discriminate H; injection H as <-; reflexivity.
    + unfold output_enable. rewrite Hb. cbn [bind].
      split; intros H; discriminate H.
  - unfold input_get_static.
    destruct (gpio_bit (to_u8 Index) InputMask) as [b |] eqn:Hb; cbn [bind].
    + rewrite <- (gpio_bit_zero_iff _ _ _ Hb).
      destruct (b =? 0); cbn [negb]; split.
      * intros H. discriminate H.
      * intros [_ H]. discriminate H.
      * intros H. split; [exact H | reflexivity].
      * intros [H _]. exact H.
    + unfold input_get. rewrite Hb. cbn [bind].
      split; [intros H | intros [H _]]; discriminate H.
Qed.

(** The result of [output_set] on a port whose output pins are 0..n-1. *)
Lemma output_set_low_pins (n : Z) (s s' : t) (i : Z) (v r : bool) :
  0 <= n ->
  output_set (Z.ones n) s i v = Some (s', r) -> r = (i <? n).
Proof.
  intros Hn H. unfold output_set in H.
  destruct (gpio_bit i (Z.ones n)) as [b |] eqn:Hb; cbn [bind] in H;
    [| discriminate H].
  injection H as _ <-. rewrite (gpio_bit_zero_iff _ _ _ Hb).
  apply Z.testbit_ones_nonneg; [exact Hn |].
  exact (proj1 (proj1 (gpio_bit_some _ _ _ Hb))).
Qed.

End Access.

(** X8: the output pins of the other instances.  [output_set] returns
    [true] exactly for pins 0..27 of the Raspberry Pi HAT header, 0..13 of the
    Arduino shield, 0..7 of a Pmod and 0..5 of Pmod C. *)
Theorem instance_output_pins (s s' : t) (i : Z) (v r : bool) :
  (output_set SonataGpioRaspberryPiHat.OutputMask s i v = Some (s', r) ->
   r = (i <? 28)) /\
  (output_set SonataGpioArduinoShield.OutputMask s i v = Some (s', r) ->
   r = (i <? 14)) /\
  (output_set SonataGpioPmod.OutputMask s i v = Some (s', r) ->
   r = (i <? 8)) /\
  (output_set SonataGpioPmodC.OutputMask s i v = Some (s', r) ->
   r = (i <? 6)).
Proof.
  repeat split.
  - apply (output_set_low_pins 28). lia.
  - apply (output_set_low_pins 14). lia.
  - apply (output_set_low_pins 8). lia.
  - apply (output_set_low_pins 6). lia.
Qed.

Lemma output_enable_in_width_witness :
  exists s',
    output_enable 0x0F (mk 1 2 3 12) 1 false = Some (s', Z.testbit 0x0F 1) /\
    forall j,
      Z.testbit (outputEnable s') j =
      (if (1 =? j) && Z.testbit 0x0F 1 then false else Z.testbit 12 j).
Proof.
  apply (output_enable_in_width 0x0F (mk 1 2 3 12) 1 false).
  - lia.
  - unfold is_u32; cbn; lia.
Defined.

Lemma input_get_in_width_witness :
  input_get 0x0001FFFF (mk 0 0x30400 0x400 0) 10 =
    Some (Z.testbit 0x30400 10 && Z.testbit 0x0001FFFF 10) /\
  input_debounced_get 0x0001FFFF (mk 0 0x30400 0x400 0) 10 =
    Some (Z.testbit 0x400 10 && Z.testbit 0x0001FFFF 10).
Proof.
  apply (input_get_in_width 0x0001FFFF (mk 0 0x30400 0x400 0) 10). lia.
Defined.

Lemma static_index_forms_witness :
  output_enable_static 0x0F 3 (mk 1 2 3 4) true = Some (mk 1 2 3 12).
Proof.
  apply (static_index_forms 0x0F 0x0F 3 (mk 1 2 3 4) (mk 1 2 3 12) true true).
  reflexivity.
Defined.

Lemma instance_output_pins_witness :
  output_set SonataGpioArduinoShield.OutputMask (mk 0 0 0 0) 14 true =
    Some (mk 0 0 0 0, false) /\
  false = (14 <? 14).
Proof.
  split; [reflexivity |].
  apply (instance_output_pins (mk 0 0 0 0) (mk 0 0 0 0) 14 true false).
  reflexivity.
Defined.

End SonataGpioLaws.

Module SonataGpioBoardLaws.

Import SonataGpio SonataGpioFacts SonataGpioLaws.
Import SonataGpioBoard SonataGpioBoardFacts.

Lemma led_bit_is_u32 (index b : Z) : led_bit index = Some b -> is_u32 b.
Proof. intros H. exact (proj1 (gpio_bit_in_mask _ _ _ H)). Qed.

Lemma led_bit_wraps (index k : Z) : led_bit (index + 256 * k) = led_bit index.
Proof.
  unfold led_bit, FirstLED. rewrite !Z.add_0_r, !to_u8_to_u32, to_u8_add_256.
  reflexivity.
Qed.

(** X9: on a 32-bit [output] and for an LED index [i], the three LED
    accessors are defined; [led_on] makes bit [i] of [output] 1, [led_off]
    makes it 0, [led_toggle] inverts it, and each leaves every other bit as
    it was. *)
Theorem led_accessors_on_led (s : t) (i : Z) :
  0 <= i < LEDCount ->
  is_u32 (output s) ->
  exists s_on s_off s_toggled,
    led_on s i = Some s_on /\ led_off s i = Some s_off /\
    led_toggle s i = Some s_toggled /\
    forall j,
      Z.testbit (output s_on) j =
        (if i =? j then true else Z.testbit (output s) j) /\
      Z.testbit (output s_off) j =
        (if i =? j then false else Z.testbit (output s) j) /\
      Z.testbit (output s_toggled) j =
        (if i =? j then negb (Z.testbit (output s) j)
         else Z.testbit (output s) j).
Proof.
  intros Hi Hu. unfold led_on, led_off, led_toggle.
  rewrite (led_bit_of_led i Hi). cbn [bind].
  do 3 eexists. repeat (split; [reflexivity |]).
  assert (Hlo : 0 <= i < 32) by (unfold LEDCount in Hi; cbn in Hi; lia).
  pose proof (pow2_is_u32 i Hlo) as Hb.
  intros j. cbn [output set_output].
  rewrite (testbit_write_bit (output s) (2 ^ i) j true Hu Hb).
  rewrite (testbit_write_bit (output s) (2 ^ i) j false Hu Hb).
  rewrite Z.lxor_spec, Z.pow2_bits_eqb by lia.
  destruct (i =? j); repeat split;
    first [reflexivity | apply xorb_true_r | apply xorb_false_r].
Qed.

(** X10: the LED accessors are [output_set] on the same pin without its
    result: [led_on(index)] leaves what [output_set(index + FirstLED, true)]
    leaves, [led_off(index)] what [output_set(index + FirstLED, false)]
    leaves, and each is defined when the other is. *)
Theorem led_on_off_are_output_set (s : t) (index : Z) :
  led_on s index =
    option_map fst
      (output_set OutputMask s (to_u8 (to_u32 (index + FirstLED))) true) /\
  led_off s index =
    option_map fst
      (output_set OutputMask s (to_u8 (to_u32 (index + FirstLED))) false).
Proof.
  unfold led_on, led_off, output_set, led_bit.
  change LEDMask with OutputMask.
  destruct (gpio_bit (to_u8 (to_u32 (index + FirstLED))) OutputMask);
    split; reflexivity.
Qed.

(** X11: for an LED index and a 32-bit [output], [led_toggle] is [led_off]
    when the LED is on and [led_on] when it is off. *)
Theorem led_toggle_is_on_or_off (s : t) (i : Z) :
  0 <= i < LEDCount ->
  is_u32 (output s) ->
  led_toggle s i =
  (if Z.testbit (output s) i then led_off s i else led_on s i).
Proof.
  intros Hi Hu. unfold led_on, led_off, led_toggle.
  rewrite (led_bit_of_led i Hi). cbn [bind].
  assert (Hlo : 0 <= i < 32) by (unfold LEDCount in Hi; cbn in Hi; lia).
  pose proof (pow2_is_u32 i Hlo) as Hb.
  destruct (Z.testbit (output s) i) eqn:Hbit; do 2 f_equal;
    bitwise j Hj; rewrite Z.pow2_bits_eqb by lia;
    in_register j Hj (output s) Hu (2 ^ i) Hb;
    destruct (Z.eqb_spec i j) as [<- | Hne];
    rewrite ?Hbit; cbn [negb]; first [lia | bit_cases].
Qed.

(** X12: for an index inside the register width, [read_switch] returns the
    bit of [input] at the index when the index is a switch and [false] past
    the switches; for a switch index it is what [input_get] returns. *)
Theorem read_switch_in_width (s : t) (index : Z) :
  0 <= index < 32 ->
  read_switch s index =
    Some (Z.testbit (input s) index && (index <? SwitchCount)) /\
  (index < SwitchCount -> read_switch s index = input_get InputMask s index).
Proof.
  intros Hi.
  assert (Hrs : read_switch s index =
                Some (Z.testbit (input s) index && (index <? SwitchCount))).
  { unfold read_switch. change (switch_bit index) with (led_bit index).
    rewrite (led_bit_in_width index Hi). cbn [bind].
    change LEDCount with SwitchCount.
    destruct (index <? SwitchCount).
    - rewrite land_pow2_positive, andb_true_r by lia. reflexivity.
    - rewrite Z.land_0_r, andb_false_r. reflexivity. }
  split; [exact Hrs |].
  intros Hsw. rewrite Hrs. unfold input_get.
  assert (Hcast : to_u8 index = index) by (apply Z.mod_small; lia).
  rewrite Hcast, (gpio_bit_defined index InputMask Hi). cbn [bind].
  assert (Hm : Z.testbit InputMask index = true).
  { change InputMask with (Z.ones 17).
    rewrite Z.testbit_ones_nonneg by lia. apply Z.ltb_lt.
    unfold SwitchCount in Hsw. cbn in Hsw. lia. }
  rewrite Hm, land_pow2_positive by lia.
  holds (index <? SwitchCount). rewrite andb_true_r. reflexivity.
Qed.

(** The bits of the joystick mask are the positions 8..12. *)
Lemma testbit_Joystick (j : Z) :
  Z.testbit Joystick j = (8 <=? j) && (j <=? 12).
Proof.
  change Joystick with (Z.shiftl (Z.ones 5) 8).
  destruct (Z.leb_spec 0 j) as [Hj | Hj].
  - rewrite Z.shiftl_spec by exact Hj.
    destruct (Z.leb_spec 8 j) as [H8 | H8]; cbn [andb].
    + rewrite Z.testbit_ones_nonneg by lia.
      destruct (Z.ltb_spec (j - 8) 5); destruct (Z.leb_spec j 12);
        try reflexivity; lia.
    + apply Z.testbit_neg_r. lia.
  - rewrite (Z.testbit_neg_r _ j Hj). fails (8 <=? j). reflexivity.
Qed.

Lemma testbit_read_joystick (s : t) (j : Z) :
  Z.testbit (read_joystick s) j =
  (8 <=? j) && (j <=? 12) && Z.testbit (input s) j.
Proof.
  unfold read_joystick, to_u16.
  destruct (Z.ltb_spec j 16) as [Hlt | Hge].
  - destruct (Z.leb_spec 0 j) as [Hj | Hj].
    + rewrite Z.mod_pow2_bits_low, Z.land_spec, testbit_Joystick by lia.
      apply andb_comm.
    + rewrite (Z.testbit_neg_r _ j Hj). fails (8 <=? j). reflexivity.
  - rewrite Z.mod_pow2_bits_high by lia. fails (j <=? 12).
    rewrite andb_false_r. reflexivity.
Qed.

Lemma land_read_joystick (s : t) (k : Z) :
  8 <= k <= 12 ->
  Z.land (read_joystick s) (2 ^ k) =
  (if Z.testbit (input s) k then 2 ^ k else 0).
Proof.
  intros Hk. rewrite Z.land_comm, land_pow2, testbit_read_joystick by lia.
  holds (8 <=? k). holds (k <=? 12). reflexivity.
Qed.

(** X13: [read_joystick] returns exactly the bits 8..12 of [input], each
    direction at its own bit, so that any set of directions asserted at once
    is read back as such; the conversion to the 16-bit enumeration loses
    nothing. *)
Theorem read_joystick_decodes (s : t) :
  (forall j,
      Z.testbit (read_joystick s) j =
      (8 <=? j) && (j <=? 12) && Z.testbit (input s) j) /\
  Z.land (read_joystick s) JoystickState.Left =
    (if Z.testbit (input s) 8 then JoystickState.Left else 0) /\
  Z.land (read_joystick s) JoystickState.Up =
    (if Z.testbit (input s) 9 then JoystickState.Up else 0) /\
  Z.land (read_joystick s) JoystickState.Pressed =
    (if Z.testbit (input s) 10 then JoystickState.Pressed else 0) /\
  Z.land (read_joystick s) JoystickState.Down =
    (if Z.testbit (input s) 11 then JoystickState.Down else 0) /\
  Z.land (read_joystick s) JoystickState.Right =
    (if Z.testbit (input s) 12 then JoystickState.Right else 0).
Proof.
  split; [exact (testbit_read_joystick s) |].
  repeat split.
  - apply (land_read_joystick s 8). lia.
  - apply (land_read_joystick s 9). lia.
  - apply (land_read_joystick s 10). lia.
  - apply (land_read_joystick s 11). lia.
  - apply (land_read_joystick s 12). lia.
Qed.

(** X14: every accessor that takes its index as [uint32_t] sees it modulo
    256, because [gpio_bit] takes a [uint8_t]: adding a multiple of 256 to
    the index changes nothing in what the call does or returns. *)
Theorem index_taken_modulo_256
  (OutputMask InputMask : Z) (s : t) (index k : Z) (enable : bool) :
  output_enable OutputMask s (index + 256 * k) enable =
    output_enable OutputMask s index enable /\
  input_get InputMask s (index + 256 * k) = input_get InputMask s index /\
  input_debounced_get InputMask s (index + 256 * k) =
    input_debounced_get InputMask s index /\
  led_on s (index + 256 * k) = led_on s index /\
  led_off s (index + 256 * k) = led_off s index /\
  led_toggle s (index + 256 * k) = led_toggle s index /\
  read_switch s (index + 256 * k) = read_switch s index.
Proof.
  unfold output_enable, input_get, input_debounced_get.
  unfold led_on, led_off, led_toggle, read_switch.
  change (switch_bit (index + 256 * k)) with (led_bit (index + 256 * k)).
  change (switch_bit index) with (led_bit index).
  rewrite to_u8_add_256, led_bit_wraps. repeat split; reflexivity.
Qed.

(** X15: the mutating operations keep every register a 32-bit value. *)
Theorem gpio_ops_keep_registers_32bit
  (OutputMask : Z) (s s' : t) (i : Z) (v : bool) :
  wf s ->
  (exists r, output_set OutputMask s i v = Some (s', r)) \/
  (exists r, output_enable OutputMask s i v = Some (s', r)) \/
  led_on s i = Some s' \/ led_off s i = Some s' \/ led_toggle s i = Some s' ->
  wf s'.
Proof.
  intros (Ho & Hi & Hd & He) Hop. unfold wf.
  destruct Hop as [[r H] | [[r H] | Hled]].
  - destruct (gpio_bit i OutputMask) as [b |] eqn:Hb.
    + pose proof (proj1 (gpio_bit_in_mask _ _ _ Hb)) as Hbu.
      rewrite (output_set_unfold OutputMask s i b v Hb) in H.
      injection H as <- _. cbn [output input debouncedInput outputEnable set_output].
      refine (conj _ (conj _ (conj _ _))); try assumption. apply write_bit_is_u32; assumption.
    + rewrite (output_set_undefined OutputMask s i v Hb) in H. discriminate H.
  - destruct (gpio_bit (to_u8 i) OutputMask) as [b |] eqn:Hb.
    + pose proof (proj1 (gpio_bit_in_mask _ _ _ Hb)) as Hbu.
      rewrite (output_enable_unfold OutputMask s i b v Hb) in H.
      injection H as <- _.
      cbn [output input debouncedInput outputEnable set_outputEnable].
      refine (conj _ (conj _ (conj _ _))); try assumption. apply write_bit_is_u32; assumption.
    + unfold output_enable in H. rewrite Hb in H. discriminate H.
  - unfold led_on, led_off, led_toggle in Hled.
    destruct (led_bit i) as [b |] eqn:Hb; cbn [bind] in Hled.
    + pose proof (led_bit_is_u32 i b Hb) as Hbu.
      destruct Hled as [H | [H | H]]; injection H as <-;
        cbn [output input debouncedInput outputEnable set_output];
        refine (conj _ (conj _ (conj _ _))); try assumption.
      * apply lor_is_u32; assumption.
      * apply land_is_u32; assumption.
      * apply lxor_is_u32; assumption.
    + destruct Hled as [H | [H | H]]; discriminate H.
Qed.

Lemma led_accessors_on_led_witness :
  exists s_on s_off s_toggled,
    led_on (mk 0x81 0 0 0) 7 = Some s_on /\
    led_off (mk 0x81 0 0 0) 7 = Some s_off /\
    led_toggle (mk 0x81 0 0 0) 7 = Some s_toggled /\
    forall j,
      Z.testbit (output s_on) j =
        (if 7 =? j then true else Z.testbit 0x81 j) /\
      Z.testbit (output s_off) j =
        (if 7 =? j then false else Z.testbit 0x81 j) /\
      Z.testbit (output s_toggled) j =
        (if 7 =? j then negb (Z.testbit 0x81 j) else Z.testbit 0x81 j).
Proof.
  apply (led_accessors_on_led (mk 0x81 0 0 0) 7).
  - unfold LEDCount, LastLED, FirstLED; lia.
  - unfold is_u32; cbn; lia.
Defined.

Lemma led_toggle_is_on_or_off_witness :
  led_toggle (mk 0x81 0 0 0) 7 = led_off (mk 0x81 0 0 0) 7.
Proof.
  apply (led_toggle_is_on_or_off (mk 0x81 0 0 0) 7).
  - unfold LEDCount, LastLED, FirstLED; lia.
  - unfold is_u32; cbn; lia.
Defined.

Lemma read_switch_in_width_witness :
  read_switch (mk 0 0x1FF00 0 0) 9 =
    Some (Z.testbit 0x1FF00 9 && (9 <? SwitchCount)) /\
  (9 < SwitchCount ->
   read_switch (mk 0 0x1FF00 0 0) 9 = input_get InputMask (mk 0 0x1FF00 0 0) 9).
Proof. apply (read_switch_in_width (mk 0 0x1FF00 0 0) 9). lia. Defined.

Lemma gpio_ops_keep_registers_32bit_witness :
  led_toggle (mk 0xFFFFFFFF 0 0 0) 0 = Some (mk 0xFFFFFFFE 0 0 0) /\
  wf (mk 0xFFFFFFFE 0 0 0).
Proof.
  split; [reflexivity |].
  apply (gpio_ops_keep_registers_32bit 0xFF (mk 0xFFFFFFFF 0 0 0)
           (mk 0xFFFFFFFE 0 0 0) 0 true).
  - unfold wf, is_u32; cbn; lia.
  - right. right. right. right. reflexivity.
Defined.

End SonataGpioBoardLaws.

Module OpenTitanUartLaws.

Import OpenTitanUart OpenTitanUartFacts.

(** The [uint32_t] shift of the narrowed quotient keeps its low 16 bits. *)
Lemma nco_field (q : Z) :
  to_u32 (Z.shiftl (to_u32 q) 16) = Z.shiftl (q mod 2 ^ 16) 16.
Proof.
  unfold to_u32. rewrite !Z.shiftl_mul_pow2 by lia.
  change (2 ^ 32) with (2 ^ 16 * 2 ^ 16) at 2.
  rewrite Z.mul_mod_distr_r by lia. f_equal.
  apply Z.mod_mod_divide. exists (2 ^ 16). reflexivity.
Qed.

Lemma init_defined (clock baud : Z) (s : t) :
  to_u64 clock <> 0 ->
  init clock s baud =
  Some (set_ctrl s
          (Z.lor (Z.shiftl
                    ((to_u64 (Z.shiftl (to_u64 baud) 20) / to_u64 clock)
                       mod 2 ^ 16) 16) 3)).
Proof.
  intros Hd. unfold init.
  destruct (Z.eqb_spec (to_u64 clock) 0) as [H0 | _]; [contradiction |].
  rewrite nco_field. reflexivity.
Qed.

Lemma init_undefined (clock baud : Z) (s : t) :
  to_u64 clock = 0 -> init clock s baud = None.
Proof. intros Hd. unfold init. rewrite Hd. reflexivity. Qed.

(** The low two bits of [(x << 16) | 3] are set and the value fits 32 bits
    when [x] fits 16. *)
Lemma ctrl_value (x : Z) :
  0 <= x < 2 ^ 16 ->
  let c := Z.lor (Z.shiftl x 16) 3 in
  Z.testbit c 0 = true /\ Z.testbit c 1 = true /\ is_u32 c /\
  Z.shiftr c 16 = x.
Proof.
  intros Hx c. subst c.
  assert (Hsh : is_u32 (Z.shiftl x 16)).
  { unfold is_u32. rewrite Z.shiftl_mul_pow2 by lia. lia. }
  split; [| split; [| split]].
  - rewrite Z.lor_spec. change (Z.testbit 3 0) with true. apply orb_true_r.
  - rewrite Z.lor_spec. change (Z.testbit 3 1) with true. apply orb_true_r.
  - apply lor_is_u32; [exact Hsh | unfold is_u32; lia].
  - rewrite Z.shiftr_lor, Z.shiftr_shiftl_l by lia.
    change (Z.shiftr 3 16) with 0. rewrite Z.lor_0_r. apply Z.shiftl_0_r.
Qed.

(** The enable bits and the shifted NCO share no position. *)
Lemma enables_below_nco (x : Z) : Z.land (Z.shiftl x 16) 3 = 0.
Proof.
  bitwise j Hj. rewrite Z.bits_0.
  destruct (Z.ltb_spec j 16) as [Hlo | Hhi].
  - rewrite Z.shiftl_spec_low by exact Hlo. reflexivity.
  - replace (Z.testbit 3 j) with false; [apply andb_false_r |].
    symmetry. change 3 with (Z.ones 2). apply Z.ones_spec_high. lia.
Qed.

(** X16: for every baud rate of the [unsigned] type and every clock that is
    not zero as a [uint64_t], [init] is defined and stores to [ctrl] the low
    16 bits of [floor (baudRate * 2^20 / clock)], shifted to bits 16..31, with
    bits 0 and 1 set: a quotient of 2^16 or more is cut to its low 16 bits. *)
Theorem init_stores_low_16_bits_of_nco (CPU_TIMER_HZ baudRate : Z) (s : t) :
  0 <= baudRate < 2 ^ 32 ->
  to_u64 CPU_TIMER_HZ <> 0 ->
  init CPU_TIMER_HZ s baudRate =
  Some (set_ctrl s
          (Z.lor (Z.shiftl
                    ((baudRate * 2 ^ 20 / to_u64 CPU_TIMER_HZ) mod 2 ^ 16) 16)
                 3)).
Proof.
  intros Hb Hd. rewrite (init_defined _ _ _ Hd).
  assert (Hb64 : to_u64 baudRate = baudRate) by (apply Z.mod_small; lia).
  rewrite Hb64, (Z.shiftl_mul_pow2 baudRate 20) by lia.
  assert (Hs64 : to_u64 (baudRate * 2 ^ 20) = baudRate * 2 ^ 20)
    by (apply Z.mod_small; lia).
  rewrite Hs64. reflexivity.
Qed.

(** X17: [init] is undefined exactly when the clock is zero as a
    [uint64_t]; whenever it is defined, whatever the baud rate, it changes no
    register but [ctrl], the new [ctrl] is a 32-bit value, and its bits 0 and
    1, the transmit and receive enables, are set. *)
Theorem init_enables_and_frame (CPU_TIMER_HZ baudRate : Z) (s s' : t) :
  (init CPU_TIMER_HZ s baudRate = None <-> to_u64 CPU_TIMER_HZ = 0)
  /\
  (init CPU_TIMER_HZ s baudRate = Some s' ->
   s' = set_ctrl s (ctrl s') /\ is_u32 (ctrl s') /\
   Z.testbit (ctrl s') 0 = true /\ Z.testbit (ctrl s') 1 = true).
Proof.
  destruct (Z.eq_dec (to_u64 CPU_TIMER_HZ) 0) as [Hz | Hnz].
  - rewrite (init_undefined _ baudRate s Hz). split.
    + split; intros _; [exact Hz | reflexivity].
    + intros H. discriminate H.
  - rewrite (init_defined _ baudRate s Hnz). split.
    + split; intros H; [discriminate H | contradiction].
    + intros H. injection H as <-. cbn [ctrl set_ctrl].
      set (q := to_u64 (Z.shiftl (to_u64 baudRate) 20) / to_u64 CPU_TIMER_HZ).
      assert (Hq : 0 <= q mod 2 ^ 16 < 2 ^ 16) by (apply Z.mod_pos_bound; lia).
      destruct (ctrl_value (q mod 2 ^ 16) Hq) as (H0 & H1 & Hu & _).
      split; [reflexivity |]. split; [exact Hu |]. split; assumption.
Qed.

(** X18: in the range of C4 the NCO is read back from [ctrl]: after [init],
    [ctrl >> 16] is [floor (baudRate * 2^20 / clock)] and the low 16 bits of
    [ctrl] are 3. *)
Theorem init_nco_read_back (CPU_TIMER_HZ baudRate : Z) (s : t) :
  0 <= baudRate < 2 ^ 32 ->
  0 < CPU_TIMER_HZ < 2 ^ 64 ->
  16 * baudRate < CPU_TIMER_HZ ->
  exists s',
    init CPU_TIMER_HZ s baudRate = Some s' /\
    Z.shiftr (ctrl s') 16 = baudRate * 2 ^ 20 / CPU_TIMER_HZ /\
    Z.land (ctrl s') 0xFFFF = 3.
Proof.
  intros Hb Hc Hlt.
  assert (Hd : to_u64 CPU_TIMER_HZ = CPU_TIMER_HZ) by (apply Z.mod_small; lia).
  assert (Hnz : to_u64 CPU_TIMER_HZ <> 0) by lia.
  rewrite (init_defined _ baudRate s Hnz).
  assert (Hb64 : to_u64 baudRate = baudRate) by (apply Z.mod_small; lia).
  rewrite Hb64, Hd, (Z.shiftl_mul_pow2 baudRate 20) by lia.
  assert (Hs64 : to_u64 (baudRate * 2 ^ 20) = baudRate * 2 ^ 20)
    by (apply Z.mod_small; lia).
  rewrite Hs64.
  pose proof (nco_bounds CPU_TIMER_HZ baudRate (proj1 Hb) (proj1 Hc) Hlt) as Hq.
  rewrite (Z.mod_small _ _ Hq).
  eexists. split; [reflexivity |]. cbn [ctrl set_ctrl].
  split.
  - exact (proj2 (proj2 (proj2 (ctrl_value _ Hq)))).
  - change 0xFFFF with (Z.ones 16). rewrite Z.land_ones by lia.
    rewrite <- Z.lxor_lor, <- Z.add_nocarry_lxor by apply enables_below_nco.
    rewrite Z.shiftl_mul_pow2, Z.add_comm, Z.mod_add by lia. reflexivity.
Qed.

Lemma init_stores_low_16_bits_of_nco_witness :
  init 1000000 (mk 0 0 0 0 0 0 0 0 0 0 0 0 0) 115200 =
  Some (mk 0 0 0 0 (Z.lor (Z.shiftl (120795 mod 2 ^ 16) 16) 3)
           0 0 0 0 0 0 0 0).
Proof.
  apply (init_stores_low_16_bits_of_nco 1000000 115200
           (mk 0 0 0 0 0 0 0 0 0 0 0 0 0)).
  - lia.
  - discriminate.
Defined.

Lemma init_enables_and_frame_witness :
  init 50000000 (mk 1 2 3 4 5 6 7 8 9 10 11 12 13) 9600 =
    Some (mk 1 2 3 4 0x00C90003 6 7 8 9 10 11 12 13) /\
  Z.testbit 0x00C90003 0 = true /\ Z.testbit 0x00C90003 1 = true.
Proof.
  split; [reflexivity |].
  apply (init_enables_and_frame 50000000 9600
           (mk 1 2 3 4 5 6 7 8 9 10 11 12 13)
           (mk 1 2 3 4 0x00C90003 6 7 8 9 10 11 12 13)).
  reflexivity.
Defined.

Lemma init_nco_read_back_witness :
  exists s',
    init 50000000 (mk 0 0 0 0 0 0 0 0 0 0 0 0 0) 115200 = Some s' /\
    Z.shiftr (ctrl s') 16 = 115200 * 2 ^ 20 / 50000000 /\
    Z.land (ctrl s') 0xFFFF = 3.
Proof.
  apply (init_nco_read_back 50000000 115200 (mk 0 0 0 0 0 0 0 0 0 0 0 0 0));
    lia.
Defined.

(** The receive level, as [can_read] extracts it. *)
Lemma rx_level_bits (v : Z) : Z.land (Z.shiftr v 16) 0xff = rx_level v.
Proof.
  unfold rx_level. rewrite land_0xff, Z.shiftr_div_pow2 by lia. reflexivity.
Qed.

(** [can_read()] is [true] exactly when bits 16..23 of [fifoStatus], the
    receive FIFO level, are not zero. *)
Lemma can_read_iff_not_empty (s : t) :
  can_read s = true <-> 0 < rx_level (fifoStatus s).
Proof. unfold can_read. rewrite rx_level_bits. apply Z.ltb_lt. Qed.

(** X19: the two levels packed in [fifoStatus] are read independently:
    with a transmit level [tx] in bits 0..7 and a receive level [rx] in bits
    16..23, [can_write()] is [tx < 32] and [can_read()] is [0 < rx], whatever
    bits 8..15 and 24 upwards hold. *)
Theorem fifo_levels_independent (s : t) (tx mid rx high : Z) :
  0 <= tx < 2 ^ 8 ->
  0 <= mid < 2 ^ 8 ->
  0 <= rx < 2 ^ 8 ->
  let v := tx + 2 ^ 8 * mid + 2 ^ 16 * rx + 2 ^ 24 * high in
  can_write (set_fifoStatus s v) = (tx <? 32) /\
  can_read (set_fifoStatus s v) = (0 <? rx).
Proof.
  intros Htx Hmid Hrx v. unfold can_write, can_read.
  cbn [fifoStatus set_fifoStatus]. rewrite land_0xff, rx_level_bits.
  assert (Hlow : v mod 2 ^ 8 = tx).
  { subst v.
    replace (tx + 2 ^ 8 * mid + 2 ^ 16 * rx + 2 ^ 24 * high)
      with (tx + (mid + 2 ^ 8 * rx + 2 ^ 16 * high) * 2 ^ 8) by ring.
    rewrite Z.mod_add by lia. apply Z.mod_small. exact Htx. }
  assert (Hrxl : rx_level v = rx).
  { unfold rx_level. subst v.
    replace (tx + 2 ^ 8 * mid + 2 ^ 16 * rx + 2 ^ 24 * high)
      with (tx + 2 ^ 8 * mid + (rx + 2 ^ 8 * high) * 2 ^ 16) by ring.
    rewrite Z.div_add by lia.
    rewrite (Z.div_small (tx + 2 ^ 8 * mid)) by lia.
    rewrite Z.add_0_l, (Z.mul_comm (2 ^ 8) high), Z.mod_add by lia.
    apply Z.mod_small. exact Hrx. }
  rewrite Hlow, Hrxl. split; reflexivity.
Qed.

Lemma fifo_levels_independent_witness :
  can_write (set_fifoStatus (mk 0 0 0 0 0 0 0 0 0 0 0 0 0)
               (32 + 2 ^ 8 * 255 + 2 ^ 16 * 1 + 2 ^ 24 * 255)) = (32 <? 32) /\
  can_read (set_fifoStatus (mk 0 0 0 0 0 0 0 0 0 0 0 0 0)
              (32 + 2 ^ 8 * 255 + 2 ^ 16 * 1 + 2 ^ 24 * 255)) = (0 <? 1).
Proof.
  apply (fifo_levels_independent (mk 0 0 0 0 0 0 0 0 0 0 0 0 0) 32 255 1 255);
    lia.
Defined.

(** *** The run of [blocking_read] *)

Lemma can_read_shown (s : t) (v : Z) :
  can_read (set_fifoStatus s v) = (0 <? rx_level v).
Proof.
  unfold can_read. cbn [fifoStatus set_fifoStatus]. rewrite rx_level_bits.
  reflexivity.
Qed.

Lemma blocking_read_S (fifo rdata : nat -> Z) (s : t) (n : nat) :
  blocking_read fifo rdata s (S n) =
  rx_step fifo rdata (blocking_read fifo rdata s n).
Proof. reflexivity. Qed.

Lemma rx_polled_S (fifo : nat -> Z) (n : nat) :
  rx_polled fifo (S n) = rx_polled fifo n ++ [Rx_load_fifoStatus (fifo n)].
Proof. unfold rx_polled. rewrite seq_S, map_app. reflexivity. Qed.

Lemma fetches_app (l1 l2 : list rx_event) :
  fetches (l1 ++ l2) = fetches l1 ++ fetches l2.
Proof. unfold fetches. apply flat_map_app. Qed.

Lemma fetches_rx_polled (fifo : nat -> Z) (n : nat) :
  fetches (rx_polled fifo n) = [].
Proof.
  induction n as [| n IH].
  - reflexivity.
  - rewrite rx_polled_S, fetches_app, IH. reflexivity.
Qed.

Lemma rx_level_bounds (v : Z) : 0 <= rx_level v < 2 ^ 8.
Proof. unfold rx_level. apply Z.mod_pos_bound. lia. Qed.

(** While every load has shown an empty receive FIFO the call is in its
    loop and has loaded nothing but [fifoStatus]. *)
Lemma rx_spinning (fifo rdata : nat -> Z) (s : t) (n : nat) :
  empty_until fifo n ->
  let r := blocking_read fifo rdata s n in
  rx_at r = RxPolling /\ rx_loads r = n /\ rx_trace r = rx_polled fifo n.
Proof.
  induction n as [| n IH]; intros Hempty.
  - repeat split; reflexivity.
  - assert (Hprev : empty_until fifo n)
      by (intros k Hk; apply Hempty; lia).
    destruct (IH Hprev) as (Hat & Hloads & Htrace).
    cbv zeta. rewrite blocking_read_S. unfold rx_step. rewrite Hat.
    cbn [rx_at rx_loads rx_trace rx_regs].
    rewrite can_read_shown, Hloads, Htrace.
    rewrite (Hempty n (Nat.lt_succ_diag_r n)). cbn [Z.ltb Z.compare].
    rewrite rx_polled_S. repeat split; reflexivity.
Qed.

Lemma rx_returned_stays (fifo rdata : nat -> Z) (s : t) (m n : nat) (v : Z) :
  rx_at (blocking_read fifo rdata s m) = RxReturned v ->
  (m <= n)%nat ->
  blocking_read fifo rdata s n = blocking_read fifo rdata s m.
Proof.
  intros Hret Hle. induction Hle as [| n Hle IH].
  - reflexivity.
  - rewrite blocking_read_S, IH. unfold rx_step. rewrite Hret. reflexivity.
Qed.

Lemma rx_first_byte (fifo rdata : nat -> Z) (s : t) (k : nat) :
  empty_until fifo k ->
  0 < rx_level (fifo k) ->
  let r1 := blocking_read fifo rdata s (S k) in
  let r2 := blocking_read fifo rdata s (S (S k)) in
  (rx_at r1 = RxFetching /\ rx_trace r1 = rx_polled fifo (S k)) /\
  (rx_at r2 = RxReturned (rdata (S k) mod 2 ^ 8) /\
   rx_trace r2 = rx_polled fifo (S k) ++ [Rx_load_rData (rdata (S k))]).
Proof.
  intros Hempty Hbyte.
  destruct (rx_spinning fifo rdata s k Hempty) as (Hat & Hloads & Htrace).
  assert (H1 : let r1 := blocking_read fifo rdata s (S k) in
               rx_at r1 = RxFetching /\ rx_loads r1 = S k /\
               rx_trace r1 = rx_polled fifo (S k)).
  { cbv zeta. rewrite blocking_read_S. unfold rx_step. rewrite Hat.
    cbn [rx_at rx_loads rx_trace rx_regs].
    rewrite can_read_shown, Hloads, Htrace.
    holds (0 <? rx_level (fifo k)).
    rewrite rx_polled_S. repeat split; reflexivity. }
  cbv zeta in *. destruct H1 as (Hat1 & Hloads1 & Htrace1).
  split; [split; assumption |].
  rewrite (blocking_read_S fifo rdata s (S k)).
  set (r1 := blocking_read fifo rdata s (S k)) in *.
  unfold rx_step. rewrite Hat1. cbn [rx_at rx_trace rx_regs rData set_rData].
  rewrite Htrace1, Hloads1. split; reflexivity.
Qed.

(** X20: the run of [blocking_read] against a device.  (1) While every load
    of [fifoStatus] so far has shown a receive level of 0, the call is in its
    loop and has not loaded [rData].  (2) At the first load that shows a
    level above 0 the loop exits, the next step loads [rData] once, and the
    call returns the low 8 bits of the value loaded.  (3) If the level is 0 at
    every load, the call is in its loop after any number of steps. *)
Theorem blocking_read_run (fifo rdata : nat -> Z) (s : t) :
  (forall r v, can_read (set_fifoStatus r v) = false <-> rx_level v = 0)
  /\
  (forall n, empty_until fifo n ->
     let r := blocking_read fifo rdata s n in
     rx_at r = RxPolling /\ fetches (rx_trace r) = [])
  /\
  (forall k, empty_until fifo k -> 0 < rx_level (fifo k) ->
     rx_at (blocking_read fifo rdata s (S k)) = RxFetching /\
     fetches (rx_trace (blocking_read fifo rdata s (S k))) = [] /\
     forall n, (k + 2 <= n)%nat ->
       let r := blocking_read fifo rdata s n in
       rx_at r = RxReturned (rdata (S k) mod 2 ^ 8) /\
       rx_trace r = rx_polled fifo (S k) ++ [Rx_load_rData (rdata (S k))] /\
       fetches (rx_trace r) = [rdata (S k)])
  /\
  ((forall k, rx_level (fifo k) = 0) ->
   forall n, rx_at (blocking_read fifo rdata s n) = RxPolling).
Proof.
  split; [| split; [| split]].
  - intros r v. rewrite can_read_shown.
    pose proof (rx_level_bounds v) as Hlevel.
    split; intros Hr.
    + apply Z.ltb_ge in Hr. lia.
    + apply Z.ltb_ge. lia.
  - intros n Hempty.
    destruct (rx_spinning fifo rdata s n Hempty) as (Hat & _ & Htrace).
    cbv zeta. rewrite Htrace, fetches_rx_polled. split; [exact Hat | reflexivity].
  - intros k Hempty Hbyte.
    destruct (rx_first_byte fifo rdata s k Hempty Hbyte)
      as ((Hat1 & Htrace1) & (Hat2 & Htrace2)).
    split; [exact Hat1 |].
    split; [rewrite Htrace1; apply fetches_rx_polled |].
    intros n Hn. cbv zeta.
    rewrite (rx_returned_stays fifo rdata s (S (S k)) n _ Hat2) by lia.
    rewrite Htrace2, fetches_app, fetches_rx_polled.
    repeat split; try reflexivity; assumption.
  - intros Hempty n.
    apply (rx_spinning fifo rdata s n). intros k _. apply Hempty.
Qed.

Lemma blocking_read_run_witness :
  let fifo := fun k : nat => if (k <? 2)%nat then 31 else 0x00010000 in
  let rdata := fun _ : nat => 0x141 in
  let r := blocking_read fifo rdata (mk 0 0 0 0 0 0 0 0 0 0 0 0 0) 4 in
  rx_at r = RxReturned 0x41 /\
  rx_trace r =
    [Rx_load_fifoStatus 31; Rx_load_fifoStatus 31;
     Rx_load_fifoStatus 0x00010000; Rx_load_rData 0x141] /\
  fetches (rx_trace r) = [0x141].
Proof.
  cbv zeta.
  destruct (blocking_read_run
              (fun k : nat => if (k <? 2)%nat then 31 else 0x00010000)
              (fun _ : nat => 0x141)
              (mk 0 0 0 0 0 0 0 0 0 0 0 0 0)) as (_ & _ & Hbyte & _).
  apply (Hbyte 2%nat).
  - intros k Hk. destruct k as [| [| k]]; [reflexivity | reflexivity | lia].
  - reflexivity.
  - lia.
Defined.

(** X21: whatever the device shows, and after any number of steps,
    [blocking_write byte] has changed no register but [wData] ([fifoStatus]
    being updated by the device); before its return it has stored nothing,
    [wData] holding what it held, and the store is made only when the last
    load of [fifoStatus] showed room; from its return on it has stored once,
    the value [byte]. *)
Theorem blocking_write_safety (fifo : nat -> Z) (s : t) (byte : Z) (n : nat) :
  let r := blocking_write fifo s byte n in
  same_but_fifoStatus_wData s (regs r) /\
  match at_point r with
  | Polling => stores (trace r) = [] /\ wData (regs r) = wData s
  | Storing =>
      stores (trace r) = [] /\ wData (regs r) = wData s /\
      can_write (regs r) = true
  | Returned => stores (trace r) = [byte] /\ wData (regs r) = byte
  end.
Proof.
  cbv zeta. induction n as [| n IH].
  - split; [repeat split |]. split; reflexivity.
  - rewrite blocking_write_S.
    set (r := blocking_write fifo s byte n) in *.
    destruct IH as [Hframe Hpt]. unfold step.
    destruct (at_point r) eqn:Hat.
    + destruct Hpt as [Hst Hw]. cbn [regs at_point trace].
      split; [exact Hframe |].
      rewrite stores_app, Hst.
      destruct (can_write (set_fifoStatus (regs r) (fifo (loads r)))) eqn:Hcw;
        repeat split; assumption.
    + destruct Hpt as (Hst & Hw & _). cbn [regs at_point trace].
      split; [exact Hframe |].
      rewrite stores_app, Hst. split; reflexivity.
    + rewrite Hat. split; assumption.
Qed.

(** X22: whatever the device shows, and after any number of steps,
    [blocking_read] has loaded [rData] at most once, and only when the last
    load of [fifoStatus] showed a byte; when it has returned, its result is
    the low 8 bits of the one value loaded, a value of [uint8_t]. *)
Theorem blocking_read_safety (fifo rdata : nat -> Z) (s : t) (n : nat) :
  let r := blocking_read fifo rdata s n in
  match rx_at r with
  | RxPolling => fetches (rx_trace r) = []
  | RxFetching => fetches (rx_trace r) = [] /\ can_read (rx_regs r) = true
  | RxReturned v =>
      exists x, fetches (rx_trace r) = [x] /\ v = x mod 2 ^ 8 /\ is_u8 v
  end.
Proof.
  cbv zeta. induction n as [| n IH].
  - reflexivity.
  - rewrite blocking_read_S.
    set (r := blocking_read fifo rdata s n) in *.
    unfold rx_step. destruct (rx_at r) eqn:Hat.
    + cbn [rx_regs rx_at rx_trace]. rewrite fetches_app, IH.
      destruct (can_read (set_fifoStatus (rx_regs r) (fifo (rx_loads r))))
        eqn:Hcr; [split |]; first [reflexivity | assumption].
    + destruct IH as [Hf _]. cbn [rx_regs rx_at rx_trace rData set_rData].
      exists (rdata (rx_loads r)). rewrite fetches_app, Hf.
      split; [reflexivity |]. split; [reflexivity |].
      unfold is_u8, to_u8. apply Z.mod_pos_bound. lia.
    + rewrite Hat. exact IH.
Qed.

End OpenTitanUartLaws.
